(** * guarded-routes-next: route lookup, registry merge and guard evaluation

    A shallow embedding of [src/index.ts] (the library) and of the guard
    predicates of the usage guide (the [guardMiddleware.ts] listing), together
    with the properties of the specification that were checked against it.

    JavaScript values are modelled with reference identity: arrays and plain
    objects live in a store and are denoted by their address, so that the
    in-place updates of the merge and the sharing it leaves behind are
    visible.  Asynchronous functions are run to completion at the point where
    they are awaited: a computation that ends in [Throw] is a thrown
    exception or a rejected promise. *)

From Stdlib Require Import ZArith String Ascii.
From stdpp Require Import base option list gmap strings pretty.

Local Open Scope string_scope.
Local Open Scope list_scope.
Local Open Scope nat_scope.

(** ** Values *)

(** A JavaScript value.  [VArr a] and [VObj l] are references into the store
    of arrays and the store of plain objects; [VFun f] names a function of
    the host application; [VBuiltin name] is a function or object of the
    runtime itself, which a plain object inherits from [Object.prototype].
    Numbers are integers (no [NaN]). *)
Inductive val : Type :=
  | VUndef
  | VNull
  | VBool (b : bool)
  | VNum (n : Z)
  | VStr (s : string)
  | VFun (f : nat)
  | VArr (a : nat)
  | VObj (l : nat)
  | VBuiltin (name : string).

Global Instance val_eq_dec : EqDecision val.
Proof. solve_decision. Defined.

Global Instance val_inhabited : Inhabited val := populate VUndef.

(** ToBoolean: what [if (v)], [!v] and [a && b] test. *)
Definition truthy (v : val) : bool :=
  match v with
  | VUndef | VNull => false
  | VBool b => b
  | VNum n => negb (n =? 0)%Z
  | VStr s => negb (String.eqb s "")
  | VFun _ | VArr _ | VObj _ | VBuiltin _ => true
  end.

(** [Array.isArray]. *)
Definition isArray (v : val) : bool :=
  match v with VArr _ => true | _ => false end.

(** The own properties of an object, by name: a name that is not there
    gives [undefined]. *)
Definition get (routes : gmap string val) (key : string) : val :=
  default VUndef (routes !! key).

(** What every plain object inherits from [Object.prototype] (ECMAScript,
    with its Annex B): eleven functions, and under [__proto__] the prototype
    object itself.  None of these properties is enumerable. *)
Definition objectPrototype : gmap string val :=
  list_to_map
    [ ("constructor", VBuiltin "Object");
      ("__defineGetter__", VBuiltin "Object.prototype.__defineGetter__");
      ("__defineSetter__", VBuiltin "Object.prototype.__defineSetter__");
      ("hasOwnProperty", VBuiltin "Object.prototype.hasOwnProperty");
      ("__lookupGetter__", VBuiltin "Object.prototype.__lookupGetter__");
      ("__lookupSetter__", VBuiltin "Object.prototype.__lookupSetter__");
      ("isPrototypeOf", VBuiltin "Object.prototype.isPrototypeOf");
      ("propertyIsEnumerable", VBuiltin "Object.prototype.propertyIsEnumerable");
      ("toString", VBuiltin "Object.prototype.toString");
      ("valueOf", VBuiltin "Object.prototype.valueOf");
      ("__proto__", VBuiltin "Object.prototype");
      ("toLocaleString", VBuiltin "Object.prototype.toLocaleString") ].

(** [routes[key]] on a plain object whose own properties are [routes]: an
    own property, also one that holds [undefined], hides the inherited one;
    without an own property the prototype is read. *)
Definition read (routes : gmap string val) (key : string) : val :=
  match routes !! key with
  | Some v => v
  | None => get objectPrototype key
  end.

(** The string ends with the character [*], as every wildcard key does. *)
Fixpoint endsWithStar (s : string) : bool :=
  match s with
  | EmptyString => false
  | String c EmptyString => Ascii.eqb c "*"
  | String _ rest => endsWithStar rest
  end.

(** ** Strings: [split] and [join] *)

(** [s.split(sep)] for a one-character separator: the empty string splits
    into one empty part. *)
Fixpoint split (sep : ascii) (s : string) : list string :=
  match s with
  | EmptyString => [EmptyString]
  | String c rest =>
      if Ascii.eqb c sep then EmptyString :: split sep rest
      else match split sep rest with
           | [] => [String c EmptyString]
           | p :: ps => String c p :: ps
           end
  end.

(** [parts.join(sep)]. *)
Fixpoint join (sep : string) (parts : list string) : string :=
  match parts with
  | [] => ""
  | [p] => p
  | p :: ps => p +:+ sep +:+ join sep ps
  end.

(** ** The route pattern matcher ([searchMapForRoute], index.ts 7-20) *)

(** The key tested at step [i] of the loop:
    [`${pathParts.slice(0, i).join('/')}/*`]. *)
Definition wildcardKey (pathParts : list string) (i : nat) : string :=
  join "/" (take i pathParts) +:+ "/*".

(** The loop [for (let i = pathParts.length; i > 0; i--)], entered at [i]. *)
Fixpoint searchWildcard (pathParts : list string) (routes : gmap string val)
    (i : nat) : val :=
  match i with
  | O => VUndef
  | S j =>
      if truthy (read routes (wildcardKey pathParts i))
      then read routes (wildcardKey pathParts i)
      else searchWildcard pathParts routes j
  end.

Definition searchMapForRoute (pathname : string) (routes : gmap string val) : val :=
  if truthy (read routes pathname) then read routes pathname
  else
    let pathParts := split "/" pathname in
    searchWildcard pathParts routes (length pathParts).

(** The wildcard patterns a path is tested against, longest first. *)
Definition wildcardKeys (pathname : string) : list string :=
  let pathParts := split "/" pathname in
  wildcardKey pathParts <$> reverse (seq 1 (length pathParts)).

(** A wildcard pattern matches a path when the loop tests it. *)
Definition matchesWildcard (pattern pathname : string) : Prop :=
  pattern ∈ wildcardKeys pathname.

(** ** The store and the state of one [generateGuardedRoutes] instance *)

(** What a computation can throw: a [TypeError] of the runtime, or a value
    raised by the host application's own code. *)
Inductive exn : Type :=
  | TypeError (msg : string)
  | Raised (e : val).

(** [arrs] and [objs] are the stores of arrays and of plain objects;
    an address is an index, and allocation appends.
    [mergedApplicationGuardedRoutes] is the closure variable of index.ts 72.
    [console] collects what [console.error] was given.  [calls] is a ghost
    trace of the guard predicates that were entered; no code reads it. *)
Record State : Type := mkState {
  arrs : list (list val);
  objs : list (gmap string val);
  mergedApplicationGuardedRoutes : val;
  console : list exn;
  calls : list string
}.

Definition set_arrs (f : list (list val) → list (list val)) (s : State) : State :=
  mkState (f (arrs s)) (objs s) (mergedApplicationGuardedRoutes s) (console s) (calls s).
Definition set_objs (f : list (gmap string val) → list (gmap string val)) (s : State) : State :=
  mkState (arrs s) (f (objs s)) (mergedApplicationGuardedRoutes s) (console s) (calls s).
Definition set_merged (v : val) (s : State) : State :=
  mkState (arrs s) (objs s) v (console s) (calls s).
Definition console_error (e : exn) (s : State) : State :=
  mkState (arrs s) (objs s) (mergedApplicationGuardedRoutes s) (console s ++ [e]) (calls s).
Definition record_call (name : string) (s : State) : State :=
  mkState (arrs s) (objs s) (mergedApplicationGuardedRoutes s) (console s) (calls s ++ [name]).

(** ** Computations: state passing with exceptions *)

Inductive result (A : Type) : Type :=
  | Ok (a : A)
  | Throw (e : exn).
Arguments Ok {A} a.
Arguments Throw {A} e.

(** A state change made before a throw stays: nothing is rolled back. *)
Definition M (A : Type) : Type := State → result A * State.

Global Instance M_ret : MRet M := λ A a s, (Ok a, s).
Global Instance M_bind : MBind M := λ A B f m s,
  match m s with
  | (Ok a, s') => f a s'
  | (Throw e, s') => (Throw e, s')
  end.

Definition throw {A} (e : exn) : M A := λ s, (Throw e, s).
Definition gets {A} (f : State → A) : M A := λ s, (Ok (f s), s).
Definition modify (f : State → State) : M unit := λ s, (Ok tt, f s).

(** [try { body } catch (e) { handler(e) }]. *)
Definition tryCatch {A} (body : M A) (handler : exn → M A) : M A := λ s,
  match body s with
  | (Ok a, s') => (Ok a, s')
  | (Throw e, s') => handler e s'
  end.

(** [for (const x of l) f(x)] over a snapshot of [l]. *)
Fixpoint forEachM {A} (f : A → M unit) (l : list A) : M unit :=
  match l with
  | [] => mret tt
  | x :: xs => f x ;; forEachM f xs
  end.

(** [l.reduce(f, acc)]. *)
Fixpoint reduceM {A B} (f : A → B → M A) (l : list B) (acc : A) : M A :=
  match l with
  | [] => mret acc
  | x :: xs => acc' ← f acc x; reduceM f xs acc'
  end.

(** ** Reading and writing the store *)

Definition arrElems (s : State) (a : nat) : list val := default [] (arrs s !! a).
Definition objProps (s : State) (l : nat) : gmap string val := default ∅ (objs s !! l).

(** The properties ["0"], ["1"], ... of an array or of a string. *)
Definition indexProps (elems : list val) : gmap string val :=
  list_to_map (imap (λ i v, (pretty i, v)) elems).

Definition chars (str : string) : list val :=
  map (λ c, VStr (String c EmptyString)) (list_ascii_of_string str).

(** The own enumerable properties of a value: what [{...v}] copies, what
    [for (key in v)] enumerates and what [v[key]] reads. *)
Definition ownProps (s : State) (v : val) : gmap string val :=
  match v with
  | VObj l => objProps s l
  | VArr a => indexProps (arrElems s a)
  | VStr str => indexProps (chars str)
  | _ => ∅
  end.

(** What [[...v]] iterates over; [None] when [v] is not iterable. *)
Definition iterate (s : State) (v : val) : option (list val) :=
  match v with
  | VArr a => Some (arrElems s a)
  | VStr str => Some (chars str)
  | _ => None
  end.

Definition allocArr (elems : list val) : M val := λ s,
  (Ok (VArr (length (arrs s))), set_arrs (λ h, h ++ [elems]) s).
Definition allocObj (props : gmap string val) : M val := λ s,
  (Ok (VObj (length (objs s))), set_objs (λ h, h ++ [props]) s).

(** [obj[key] = v] on the plain object at address [l]. *)
Definition setProp (l : nat) (key : string) (v : val) : M unit :=
  modify (λ s, set_objs (λ h, <[l := <[key := v]> (objProps s l)]> h) s).

(** [v[key]] for a name that no value inherits, as the names of the
    categories are; reading a property of [undefined] or [null] is a
    TypeError. *)
Definition getProp (v : val) (key : string) : M val :=
  match v with
  | VUndef | VNull => throw (TypeError "cannot read properties of undefined")
  | _ => gets (λ s, get (ownProps s v) key)
  end.

(** ** The registry merger ([generateGuardedRoutes], index.ts 66-91) *)

(** The body of [for (const key in curr)] (index.ts 80-84).  [acc] is the
    address of the accumulator object.  Of [acc[key]] the own property is
    read: what [acc] would inherit under [key] is not an array and spreads to
    nothing, as [undefined] does. *)
Definition mergeKey (acc : nat) (curr : val) (key : string) : M unit :=
  accKey ← gets (λ s, get (objProps s acc) key);
  currKey ← gets (λ s, get (ownProps s curr) key);
  if isArray accKey then
    accElems ← gets (λ s, default [] (iterate s accKey));
    spread ← gets (λ s, iterate s currKey);
    match spread with
    | None => throw (TypeError "curr[key] is not iterable")
    | Some currElems =>
        fresh ← allocArr (accElems ++ currElems);
        setProp acc key fresh
    end
  else if truthy currKey then
    accProps ← gets (λ s, ownProps s accKey);
    currProps ← gets (λ s, ownProps s currKey);
    fresh ← allocObj (currProps ∪ accProps);
    setProp acc key fresh
  else mret tt.

(** The reducer (index.ts 78-87): it updates [acc] in place and returns it.
    The keys are taken in the order of the map, not in the order in which the
    fragment was written: the categories are merged independently of one
    another, and only the state that a throwing merge leaves depends on the
    order. *)
Definition reducer (acc : nat) (curr : val) : M nat :=
  keys ← gets (λ s, (map_to_list (ownProps s curr)).*1);
  forEachM (mergeKey acc curr) keys;;
  mret acc.

(** [getApplicationGuardedRoutes] (index.ts 74-91).  [initValue] is the
    address of the caller's initial object: the reduction starts from that
    very object. *)
Definition getApplicationGuardedRoutes (initValue : nat)
    (applicationGuardedRoutes : list val) : M val :=
  cached ← gets mergedApplicationGuardedRoutes;
  if truthy cached then mret cached
  else
    merged ← reduceM reducer applicationGuardedRoutes initValue;
    modify (set_merged (VObj merged));;
    gets mergedApplicationGuardedRoutes.

(** ** The decision function and the middleware (index.ts 22-114) *)

(** [request.nextUrl]: the navigation context of a request. *)
Record NextUrl : Type := mkNextUrl {
  pathname : string;
  searchParams : string;
  host : string;
  protocol : string
}.

Record NextRequest : Type := mkNextRequest { nextUrl : NextUrl }.

(** [GenerateGuardedRoutesParams].  The configuration accessor handed to the
    two caller-supplied functions is a computation: calling it runs
    [getApplicationGuardedRoutes]. *)
Record GenerateGuardedRoutesParams : Type := mkParams {
  isPathAllowedWithGetApplicationGuardedRoutes : M val → string → M bool;
  initValue : nat;
  applicationGuardedRoutes : list val;
  middlewareReject : M val → NextUrl → M val
}.

(** [GeneratedGuardedRoutesReturnType]. *)
Record GeneratedGuardedRoutesReturnType : Type := mkGenerated {
  guardMiddleware : NextRequest → val → M val;
  isPathAllowed : string → M bool
}.

Definition generateGuardedRoutes (params : GenerateGuardedRoutesParams)
    : GeneratedGuardedRoutesReturnType :=
  let getApplicationGuardedRoutes :=
    getApplicationGuardedRoutes (initValue params) (applicationGuardedRoutes params) in
  let isPathAllowed := λ path : string,
    isPathAllowedWithGetApplicationGuardedRoutes params getApplicationGuardedRoutes path in
  let guardMiddleware := λ (request : NextRequest) (response : val),
    let pathname := pathname (nextUrl request) in
    returned ← tryCatch
      (allowed ← isPathAllowed pathname;
       mret (if allowed : bool then Some response else None))
      (λ e, modify (console_error e);; mret None);
    match returned with
    | Some r => mret r
    | None => middlewareReject params getApplicationGuardedRoutes (nextUrl request)
    end in
  {| guardMiddleware := guardMiddleware; isPathAllowed := isPathAllowed |}.

(** ** The guard predicates of the usage guide ([guardMiddleware.ts]) *)

(** [f()] for a member [f] of [Object.prototype], called as the guide calls
    it: without a receiver and without arguments, in module code, where
    [this] is [undefined].  [Object()] returns a new object and
    [toString()] returns a string, both truthy; [isPrototypeOf()] returns
    [false]; the prototype object itself is not a function; every other
    member fails to convert [undefined] to an object.  A result that is not
    a boolean is represented by its truthiness, which is all its callers
    test. *)
Definition callBuiltin (name : string) : M bool :=
  if decide (name = "Object") then mret true
  else if decide (name = "Object.prototype.toString") then mret true
  else if decide (name = "Object.prototype.isPrototypeOf") then mret false
  else if decide (name = "Object.prototype")
       then throw (TypeError "relevantRouteValues is not a function")
       else throw (TypeError "cannot convert undefined to object").

Module Guide.
Section Host.

(** The host application: its feature-flag service, and what calling the
    function [VFun f] does.  Both may change the state and may throw. *)
Variable getFlags : val → M bool.
Variable callFunction : nat → M bool.

(** [searchMapForRoute(pathname, routes)] on a value of the store.  The
    category is read as a plain object: what an array, a string or a function
    has besides its own enumerable properties and the members of
    [Object.prototype] is not modelled. *)
Definition searchMapForRouteOf (pathname : string) (routes : val) : M val :=
  match routes with
  | VUndef | VNull => throw (TypeError "cannot read properties of undefined")
  | _ => gets (λ s, searchMapForRoute pathname (ownProps s routes))
  end.

(** [roles.includes(x)] for an array or a string; the other values are
    taken to have no [includes] of their own. *)
Definition includes (roles : val) (x : string) : M bool :=
  match roles with
  | VArr a => gets (λ s, bool_decide (VStr x ∈ arrElems s a))
  | VStr str => mret (bool_decide (is_Some (String.index 0 x str)))
  | _ => throw (TypeError "roles.includes is not a function")
  end.

(** [f()]. *)
Definition call (f : val) : M bool :=
  match f with
  | VFun n => callFunction n
  | VBuiltin name => callBuiltin name
  | _ => throw (TypeError "relevantRouteValues is not a function")
  end.

(** The three predicates.  Each one first records its entry in the ghost
    trace [calls]; the rest is the body of the listing. *)
Definition checkRouteForRole (getApplicationGuardedRoutes : M val)
    (pathname : string) : M bool :=
  modify (record_call "checkRouteForRole");;
  config ← getApplicationGuardedRoutes;
  roleBasedRoutes ← getProp config "roleBasedRoutes";
  roles ← searchMapForRouteOf pathname roleBasedRoutes;
  if negb (truthy roles) then mret true
  else
    isAdmin ← includes roles "admin";
    mret (negb isAdmin).

Definition checkRouteForFeatureFlag (getApplicationGuardedRoutes : M val)
    (pathname : string) : M bool :=
  modify (record_call "checkRouteForFeatureFlag");;
  config ← getApplicationGuardedRoutes;
  featureFlaggedRoutes ← getProp config "featureFlaggedRoutes";
  featureFlags ← searchMapForRouteOf pathname featureFlaggedRoutes;
  if negb (truthy featureFlags) then mret true
  else getFlags featureFlags.

Definition checkRouteForSpecialChecks (getApplicationGuardedRoutes : M val)
    (pathname : string) : M bool :=
  modify (record_call "checkRouteForSpecialChecks");;
  config ← getApplicationGuardedRoutes;
  specialChecksRoutes ← getProp config "specialChecksRoutes";
  relevantRouteValues ← searchMapForRouteOf pathname specialChecksRoutes;
  if negb (truthy relevantRouteValues) then mret true
  else call relevantRouteValues.

(** [(await a) && (await b)] on booleans: [b] runs only when [a] gave
    [true]. *)
Definition andAwait (a b : M bool) : M bool :=
  x ← a; if x : bool then b else mret false.

Definition isPathAllowedWithGetApplicationGuardedRoutes
    (getApplicationGuardedRoutes : M val) (pathname : string) : M bool :=
  andAwait
    (andAwait (checkRouteForRole getApplicationGuardedRoutes pathname)
              (checkRouteForFeatureFlag getApplicationGuardedRoutes pathname))
    (checkRouteForSpecialChecks getApplicationGuardedRoutes pathname).

End Host.
End Guide.

(** ** Scenarios used below *)

(** A table with a falsy value under the longer of two wildcard patterns. *)
Definition falsyWildcardTable : gmap string val :=
  {[ "/a/*" := VNum 1; "/a/b/*" := VNum 0 ]}.

(** A table with a falsy value under an exact key that a wildcard covers. *)
Definition falsyExactTable : gmap string val :=
  {[ "/a/b" := VBool false; "/a/*" := VStr "wildcard" ]}.

(** The table of the specification's precedence examples. *)
Definition nestedTable : gmap string val :=
  {[ "/a/*" := VNum 1; "/a/b/*" := VNum 2; "/a/b" := VNum 3 ]}.

(** The guide's setup: [generateGuardedRoutes] applied to the guide's
    composed predicate. *)
Definition guideParams (getFlags : val → M bool) (callFunction : nat → M bool)
    (initValue : nat) (applicationGuardedRoutes : list val)
    (middlewareReject : M val → NextUrl → M val) : GenerateGuardedRoutesParams :=
  {| isPathAllowedWithGetApplicationGuardedRoutes :=
       Guide.isPathAllowedWithGetApplicationGuardedRoutes getFlags callFunction;
     initValue := initValue;
     applicationGuardedRoutes := applicationGuardedRoutes;
     middlewareReject := middlewareReject |}.

(** The store of the guide's example.  Object 0 is [initValue] with its three
    empty categories (objects 1-3); object 4 is [safePageGuardedRoutes] with
    its four categories (objects 5-8). *)
Definition guideState : State :=
  {| arrs := [ [VStr "admin"]; [VStr "betaFeature"] ];
     objs := [ {[ "roleBasedRoutes" := VObj 1; "specialChecksRoutes" := VObj 2;
                  "featureFlaggedRoutes" := VObj 3 ]};
               ∅; ∅; ∅;
               {[ "roleBasedRoutes" := VObj 5; "featureFlaggedRoutes" := VObj 6;
                  "specialChecksRoutes" := VObj 7; "defaultRedirects" := VObj 8 ]};
               {[ "/admin-only-route" := VArr 0 ]};
               {[ "/beta-route" := VArr 1 ]};
               {[ "/special-route" := VFun 0 ]};
               {[ "/beta-route" := VFun 1 ]} ];
     mergedApplicationGuardedRoutes := VUndef;
     console := [];
     calls := [] |}.

(** A host whose flags are all on and whose custom checks fail. *)
Definition flagsOn : val → M bool := λ _, mret true.
Definition checkFails : nat → M bool := λ _, throw (Raised (VStr "check failed")).

(** A rejection handler that answers with a fixed value. *)
Definition rejectWith (response : val) : M val → NextUrl → M val :=
  λ _ _, mret response.

Definition failingGuide : GenerateGuardedRoutesParams :=
  guideParams flagsOn checkFails 0 [VObj 4] (rejectWith (VNum 404)).

Definition requestFor (path : string) : NextRequest :=
  {| nextUrl := {| pathname := path; searchParams := ""; host := "localhost";
                   protocol := "http:" |} |}.

(** The end-to-end scenario of the specification: the single fragment
    (object 4) [{roleBasedRoutes: {"/admin/*": ["admin"]}}], merged into an
    initial value (object 0) whose categories (objects 1-3) are empty. *)
Definition adminState : State :=
  {| arrs := [ [VStr "admin"] ];
     objs := [ {[ "roleBasedRoutes" := VObj 1; "specialChecksRoutes" := VObj 2;
                  "featureFlaggedRoutes" := VObj 3 ]};
               ∅; ∅; ∅;
               {[ "roleBasedRoutes" := VObj 5 ]};
               {[ "/admin/*" := VArr 0 ]} ];
     mergedApplicationGuardedRoutes := VUndef;
     console := [];
     calls := [] |}.

Definition adminGuide (getFlags : val → M bool) (callFunction : nat → M bool)
    : GenerateGuardedRoutesParams :=
  guideParams getFlags callFunction 0 [VObj 4] (rejectWith (VNum 404)).

(** ** Relations between states *)

(** [v] is a reference to an array or object that [s] has not allocated. *)
Definition freshIn (s : State) (v : val) : Prop :=
  match v with
  | VArr a => length (arrs s) ≤ a
  | VObj l => length (objs s) ≤ l
  | _ => False
  end.

(** [v] is not a dangling reference of [s], and it is not the object at
    address [init]. *)
Definition allocatedIn (init : nat) (s : State) (v : val) : Prop :=
  match v with
  | VArr a => a < length (arrs s)
  | VObj l => l < length (objs s) ∧ l ≠ init
  | _ => True
  end.

(** From [s] to [s'], every array and every object other than the one at
    [init] kept its content, and no object was removed. *)
Record frame (init : nat) (s s' : State) : Prop := mkFrame {
  frame_arrs : arrs s `prefix_of` arrs s';
  frame_length : length (objs s) ≤ length (objs s');
  frame_objs : ∀ l props,
    l ≠ init → objs s !! l = Some props → objs s' !! l = Some props
}.

(** A computation that changes no array and no object other than the one at
    [init], whatever its outcome, when started where [init] is allocated. *)
Definition preserves {A} (init : nat) (m : M A) : Prop :=
  ∀ s r s', init < length (objs s) → m s = (r, s') → frame init s s'.

(** What the merge may do to a state: allocate, and update the object at
    [init], each of whose properties keeps its value or receives a freshly
    allocated array or object. *)
Record extends (init : nat) (s s' : State) : Prop := mkExtends {
  ext_frame : frame init s s';
  ext_init : ∀ key,
    get (objProps s' init) key = get (objProps s init) key ∨
    freshIn s (get (objProps s' init) key);
  ext_merged : mergedApplicationGuardedRoutes s' = mergedApplicationGuardedRoutes s;
  ext_console : console s' = console s;
  ext_calls : calls s' = calls s
}.

(** The effect of merging the fragment [curr] on the category [key] of the
    accumulator at [init], from state [s] to state [s'] (index.ts 80-84). *)
Definition keyMerged (init : nat) (s : State) (curr : val) (s' : State)
    (key : string) : Prop :=
  let accKey := get (objProps s init) key in
  let currKey := get (ownProps s curr) key in
  let accKey' := get (objProps s' init) key in
  if isArray accKey then
    ∃ currElems a,
      iterate s currKey = Some currElems ∧ accKey' = VArr a ∧
      length (arrs s) ≤ a ∧
      arrs s' !! a = Some (default [] (iterate s accKey) ++ currElems)
  else if truthy currKey then
    ∃ l props,
      accKey' = VObj l ∧ length (objs s) ≤ l ∧ objs s' !! l = Some props ∧
      ∀ route, props !! route = match ownProps s currKey !! route with
                                | Some v => Some v
                                | None => ownProps s accKey !! route
                                end
  else accKey' = accKey.

(** A later state that differs from [s1] only in arrays and objects that
    [s] had already allocated, the object at [init] excepted. *)
Record overwritten (init : nat) (s s1 s2 : State) : Prop := mkOverwritten {
  over_merged : mergedApplicationGuardedRoutes s2 = mergedApplicationGuardedRoutes s1;
  over_init : objs s2 !! init = objs s1 !! init;
  over_objs : ∀ l, length (objs s) ≤ l → objs s2 !! l = objs s1 !! l;
  over_arrs : ∀ a, length (arrs s) ≤ a → arrs s2 !! a = arrs s1 !! a
}.


(** What a lookup of [route] in the category [category] of the configuration
    object [config] reads: the elements of the array found, if any. *)
Definition readRoute (s : State) (config : val) (category route : string)
    : list val :=
  default []
    (iterate s (searchMapForRoute route (ownProps s (get (ownProps s config) category)))).

(** [arr.push(x)] on the array at address [a], by the host application. *)
Definition push (a : nat) (x : val) (s : State) : State :=
  set_arrs (alter (λ elems, elems ++ [x]) a) s.

(** One fragment (object 4) [{roleBasedRoutes: {"/x": ["editor"]}}]; its
    role list is array 0.  Object 0 is the initial value. *)
Definition editorState : State :=
  {| arrs := [ [VStr "editor"] ];
     objs := [ {[ "roleBasedRoutes" := VObj 1; "specialChecksRoutes" := VObj 2;
                  "featureFlaggedRoutes" := VObj 3 ]};
               ∅; ∅; ∅;
               {[ "roleBasedRoutes" := VObj 5 ]};
               {[ "/x" := VArr 0 ]} ];
     mergedApplicationGuardedRoutes := VUndef;
     console := [];
     calls := [] |}.

(** The state after the first access of the configuration in
    [editorState]. *)
Definition editorMerged : State :=
  snd (getApplicationGuardedRoutes 0 [VObj 4] editorState).


(** The merge example of the specification with a mapping-typed category:
    the initial value (object 0) is [{roles: {}}], the fragments are
    [{roles: {"/x": ["admin"]}}] (object 2) and [{roles: {"/x": ["editor"]}}]
    (object 4). *)
Definition mappingState : State :=
  {| arrs := [ [VStr "admin"]; [VStr "editor"] ];
     objs := [ {[ "roles" := VObj 1 ]}; ∅;
               {[ "roles" := VObj 3 ]}; {[ "/x" := VArr 0 ]};
               {[ "roles" := VObj 5 ]}; {[ "/x" := VArr 1 ]} ];
     mergedApplicationGuardedRoutes := VUndef;
     console := [];
     calls := [] |}.

(** The same example with a sequence-typed category: the initial value
    (object 0) is [{roles: []}], the fragments are [{roles: ["admin"]}]
    (object 1) and [{roles: ["editor"]}] (object 2). *)
Definition sequenceState : State :=
  {| arrs := [ []; [VStr "admin"]; [VStr "editor"] ];
     objs := [ {[ "roles" := VArr 0 ]};
               {[ "roles" := VArr 1 ]};
               {[ "roles" := VArr 2 ]} ];
     mergedApplicationGuardedRoutes := VUndef;
     console := [];
     calls := [] |}.


(** A computation that does not write the trace of entered predicates. *)
Definition keepsCalls {A} (m : M A) : Prop :=
  ∀ s r s', m s = (r, s') → calls s' = calls s.


(** A configuration whose merge throws: the category [roles] is an array in
    the initial value (object 0) and in the first fragment (object 1), and a
    mapping in the second fragment (object 2). *)
Definition mixedState : State :=
  {| arrs := [ []; [VStr "admin"] ];
     objs := [ {[ "roles" := VArr 0 ]};
               {[ "roles" := VArr 1 ]};
               {[ "roles" := VObj 3 ]};
               {[ "/x" := VArr 1 ]} ];
     mergedApplicationGuardedRoutes := VUndef;
     console := [];
     calls := [] |}.


(** ** The merge as a function of the fragments *)

(** What the fragment [curr] holds under the category [key], read in [s]. *)
Definition fragmentValue (s : State) (curr : val) (key : string) : val :=
  get (ownProps s curr) key.

(** A sequence category after the fragments: the initial elements followed
    by what each fragment holds under [key], in the order of the list. *)
Definition mergedSequence (s : State) (fragments : list val) (key : string)
    (elems : list val) : list val :=
  elems ++ concat ((λ curr, default [] (iterate s (fragmentValue s curr key)))
                     <$> fragments).

(** A mapping category after the fragments: each fragment in turn is laid
    over what has been gathered so far. *)
Definition mergedMapping (s : State) (fragments : list val) (key : string)
    (props : gmap string val) : gmap string val :=
  foldl (λ gathered curr, ownProps s (fragmentValue s curr key) ∪ gathered)
        props fragments.

(** The error of spreading a value that is not iterable (index.ts 81). *)
Definition notIterable : exn := TypeError "curr[key] is not iterable".


(** ** Reading a category of the configuration *)

(** [undefined] or [null]: the values a property cannot be read from. *)
Definition nullish (v : val) : bool :=
  match v with VUndef | VNull => true | _ => false end.

(** A reference to a plain object of the store. *)
Definition isPlainObject (v : val) : bool :=
  match v with VObj _ => true | _ => false end.

(** The error of reading a property of [undefined] or [null]. *)
Definition readError : exn := TypeError "cannot read properties of undefined".

(** The first three lines of each predicate of the guide: get the
    configuration, take one category of it, look the path up there. *)
Definition lookupThen {A} (accessor : M val) (category path : string)
    (k : val → M A) : M A :=
  config ← accessor;
  routes ← getProp config category;
  found ← Guide.searchMapForRouteOf path routes;
  k found.

(** The configuration [config], read in [s], has the category as a plain
    object, and the lookup of the path there gives no truthy value. *)
Definition noRule (s : State) (config : val) (category path : string) : Prop :=
  nullish config = false ∧
  isPlainObject (get (ownProps s config) category) = true ∧
  truthy (searchMapForRoute path (ownProps s (get (ownProps s config) category)))
    = false.

(** The configuration [config], read in [s], has the category as a plain
    object, and the lookup of the path there gives the truthy value
    [found]. *)
Definition ruleFound (s : State) (config : val) (category path : string)
    (found : val) : Prop :=
  nullish config = false ∧
  isPlainObject (get (ownProps s config) category) = true ∧
  searchMapForRoute path (ownProps s (get (ownProps s config) category)) = found ∧
  truthy found = true.

(** The configuration is [undefined] or [null], or lacks the category. *)
Definition categoryMissing (s : State) (config : val) (category : string) : Prop :=
  nullish config = true ∨ nullish (get (ownProps s config) category) = true.

(** A cached configuration whose three categories are empty objects, and one
    that lacks [specialChecksRoutes]. *)
Definition emptyCached : State :=
  {| arrs := [];
     objs := [ {[ "roleBasedRoutes" := VObj 1; "specialChecksRoutes" := VObj 2;
                  "featureFlaggedRoutes" := VObj 3 ]};
               ∅; ∅; ∅ ];
     mergedApplicationGuardedRoutes := VObj 0;
     console := [];
     calls := [] |}.

Definition incompleteCached : State :=
  {| arrs := [];
     objs := [ {[ "roleBasedRoutes" := VObj 1; "featureFlaggedRoutes" := VObj 2 ]};
               ∅; ∅ ];
     mergedApplicationGuardedRoutes := VObj 0;
     console := [];
     calls := [] |}.


(** The state after the first access of the configuration in [guideState]. *)
Definition guideMerged : State :=
  snd (getApplicationGuardedRoutes 0 [VObj 4] guideState).

(** A rejection handler that throws. *)
Definition rejectThrows : M val → NextUrl → M val :=
  λ _ _, throw (Raised (VStr "no handler")).


(** The value can be called: a function of the host application, or a
    function that every object inherits. *)
Definition isCallable (v : val) : bool :=
  match v with
  | VFun _ => true
  | VBuiltin name => negb (bool_decide (name = "Object.prototype"))
  | _ => false
  end.

(** The value, read in [s], has no method [includes]: it is neither an array
    nor a string, and when it is a plain object it holds nothing callable
    under that name. *)
Definition lacksIncludes (s : State) (v : val) : bool :=
  match v with
  | VArr _ | VStr _ => false
  | VObj l => negb (isCallable (get (objProps s l) "includes"))
  | _ => true
  end.

(** A rejection handler that consults the configuration, as the handler of
    the guide does, and answers with it. *)
Definition rejectConsults : M val → NextUrl → M val :=
  λ accessor _, accessor.


(** * Properties *)

(** ** Sanity checks of the string functions and of the matcher *)

Example split_ex : split "/" "/a/b" = [""; "a"; "b"].
Proof. reflexivity. Qed.
Example keys_ex : wildcardKeys "/a/b/c" = ["/a/b/c/*"; "/a/b/*"; "/a/*"; "/*"].
Proof. reflexivity. Qed.
Example keys_ex2 : wildcardKeys "/ab" = ["/ab/*"; "/*"].
Proof. reflexivity. Qed.
Example keys_ex3 : wildcardKeys "" = ["/*"].
Proof. reflexivity. Qed.
Example search_ex :
  searchMapForRoute "/a/b/c" {[ "/a/*" := VNum 1; "/a/b/*" := VNum 2 ]} = VNum 2.
Proof. vm_compute. reflexivity. Qed.

(** ** Running computations *)

Lemma run_bind {A B} (m : M A) (f : A → M B) (s : State) :
  (m ≫= f) s = match m s with
               | (Ok a, s') => f a s'
               | (Throw e, s') => (Throw e, s')
               end.
Proof. reflexivity. Qed.

Lemma run_forEachM_cons {A} (f : A → M unit) (x : A) (xs : list A) (s : State) :
  forEachM f (x :: xs) s = match f x s with
                           | (Ok _, s') => forEachM f xs s'
                           | (Throw e, s') => (Throw e, s')
                           end.
Proof. reflexivity. Qed.

(** A run is known from its outcome: the state it leaves is its second
    component. *)
Lemma run_outcome {A} (m : M A) (s : State) (r : result A) :
  fst (m s) = r → m s = (r, snd (m s)).
Proof. intros <-. apply surjective_pairing. Qed.

(** Settles [m s = (r, snd (m s))] on a closed state by evaluating the
    outcome. *)
Ltac by_outcome :=
  lazymatch goal with
  | |- ?m ?s = (?r, _) =>
      exact (run_outcome m s r ltac:(vm_compute; reflexivity))
  end.

(** ** Reading through the prototype *)

Lemma get_None (routes : gmap string val) (key : string) :
  routes !! key = None → get routes key = VUndef.
Proof. unfold get. by intros ->. Qed.

Lemma get_own (routes : gmap string val) (key : string) (v : val) :
  routes !! key = Some v → get routes key = v.
Proof. unfold get. by intros ->. Qed.

(** An own property hides the inherited one. *)
Lemma read_own (routes : gmap string val) (key : string) (v : val) :
  routes !! key = Some v → read routes key = v.
Proof. unfold read. by intros ->. Qed.

(** Under a name that [Object.prototype] does not have, only the own
    properties are read. *)
Lemma read_get (routes : gmap string val) (key : string) :
  objectPrototype !! key = None → read routes key = get routes key.
Proof.
  intros Hproto. unfold read, get.
  destruct (routes !! key); [reflexivity|]. by rewrite Hproto.
Qed.

(** Without an own property, the inherited one is read. *)
Lemma read_inherited (routes : gmap string val) (key : string) :
  routes !! key = None → read routes key = get objectPrototype key.
Proof. unfold read. by intros ->. Qed.

Lemma endsWithStar_app (x : string) : endsWithStar (x +:+ "/*") = true.
Proof.
  induction x as [|c x IH]; [reflexivity|].
  change (String c x +:+ "/*") with (String c (x +:+ "/*")).
  cbn [endsWithStar]. destruct (x +:+ "/*") eqn:Hx; [|done].
  by destruct x.
Qed.

(** No member of [Object.prototype] is named like a wildcard key. *)
Lemma objectPrototype_star (key : string) :
  endsWithStar key = true → objectPrototype !! key = None.
Proof.
  intros Hstar. apply not_elem_of_list_to_map_1. cbn [fmap list_fmap fst].
  intros Hin.
  repeat (apply elem_of_cons in Hin as [->|Hin]; [discriminate Hstar|]).
  by apply elem_of_nil in Hin.
Qed.

(** No member of [Object.prototype] is named like a path that starts with a
    slash. *)
Lemma objectPrototype_slash (rest : string) :
  objectPrototype !! String "/" rest = None.
Proof.
  apply not_elem_of_list_to_map_1. cbn [fmap list_fmap fst].
  intros Hin.
  repeat (apply elem_of_cons in Hin as [[=]|Hin]).
  by apply elem_of_nil in Hin.
Qed.

(** A wildcard key is read from the own properties. *)
Lemma read_wildcardKey (pathParts : list string) (routes : gmap string val)
    (i : nat) :
  read routes (wildcardKey pathParts i) = get routes (wildcardKey pathParts i).
Proof. apply read_get, objectPrototype_star, endsWithStar_app. Qed.

(** ** The route pattern matcher *)

Section Matcher.
Context (pathParts : list string) (routes : gmap string val).

(** The loop returns [undefined] when no tested key holds a truthy value. *)
Lemma searchWildcard_none (n : nat) :
  (∀ j, (1 ≤ j ≤ n) → truthy (get routes (wildcardKey pathParts j)) = false) →
  searchWildcard pathParts routes n = VUndef.
Proof.
  induction n as [|n IH]; intros Hnone; [reflexivity|].
  cbn [searchWildcard]. rewrite read_wildcardKey, (Hnone (S n)) by lia.
  apply IH. intros j Hj. apply Hnone. lia.
Qed.

(** The loop returns the value under the first truthy key it meets, going
    down from [n]. *)
Lemma searchWildcard_first (n i : nat) :
  (1 ≤ i ≤ n) →
  truthy (get routes (wildcardKey pathParts i)) = true →
  (∀ j, (i < j ≤ n) → truthy (get routes (wildcardKey pathParts j)) = false) →
  searchWildcard pathParts routes n = get routes (wildcardKey pathParts i).
Proof.
  induction n as [|n IH]; intros Hi Htrue Hlonger; [lia|].
  cbn [searchWildcard]. rewrite read_wildcardKey.
  destruct (decide (i = S n)) as [->|Hne].
  - by rewrite Htrue.
  - rewrite (Hlonger (S n)) by lia.
    apply IH; [lia|done|]. intros j Hj. apply Hlonger. lia.
Qed.

(** Whatever the loop returns other than [undefined] is truthy and is stored
    under one of the tested keys. *)
Lemma searchWildcard_found (n : nat) (v : val) :
  searchWildcard pathParts routes n = v → v ≠ VUndef →
  ∃ i, (1 ≤ i ≤ n) ∧ get routes (wildcardKey pathParts i) = v ∧ truthy v = true.
Proof.
  induction n as [|n IH]; cbn [searchWildcard]; intros Hv Hdef; [congruence|].
  rewrite read_wildcardKey in Hv.
  destruct (truthy (get routes (wildcardKey pathParts (S n)))) eqn:Ht.
  - exists (S n). subst v. split; [lia|done].
  - destruct (IH Hv Hdef) as (i & Hi & Hget & Htr). exists i. split; [lia|done].
Qed.

End Matcher.

Lemma elem_of_wildcardKeys (pattern pathname : string) :
  pattern ∈ wildcardKeys pathname ↔
  ∃ i, (1 ≤ i ≤ length (split "/" pathname)) ∧
       pattern = wildcardKey (split "/" pathname) i.
Proof.
  unfold wildcardKeys. rewrite list_elem_of_fmap. split.
  - intros (i & -> & Hi). apply elem_of_reverse, elem_of_seq in Hi.
    exists i. split; [lia|done].
  - intros (i & Hi & ->). exists i. split; [done|].
    apply elem_of_reverse, elem_of_seq. lia.
Qed.

(** Past an exact key that reads as falsy, the lookup is the loop over the
    parts of the path. *)
Lemma searchMapForRoute_wildcard (pathname : string) (routes : gmap string val)
    (i : nat) :
  truthy (read routes pathname) = false →
  1 ≤ i ≤ length (split "/" pathname) →
  truthy (get routes (wildcardKey (split "/" pathname) i)) = true →
  (∀ j, i < j ≤ length (split "/" pathname) →
        truthy (get routes (wildcardKey (split "/" pathname) j)) = false) →
  searchMapForRoute pathname routes
  = get routes (wildcardKey (split "/" pathname) i).
Proof.
  intros Hexact Hi Htruthy Hlonger. unfold searchMapForRoute.
  rewrite Hexact. by apply searchWildcard_first.
Qed.

(** C3 (as amended): exact-match precedence.  When the value stored under the
    exact key [pathname] is truthy, [searchMapForRoute] returns that value,
    whatever wildcard entries the table also has. *)
Theorem exact_match_precedence (pathname : string) (routes : gmap string val)
    (v : val) :
  routes !! pathname = Some v →
  truthy v = true →
  searchMapForRoute pathname routes = v.
Proof.
  intros Hkey Htruthy. unfold searchMapForRoute.
  rewrite (read_own _ _ _ Hkey). by rewrite Htruthy.
Qed.

Lemma exact_match_precedence_witness :
  nestedTable !! "/a/b" = Some (VNum 3) ∧
  truthy (VNum 3) = true ∧
  searchMapForRoute "/a/b" nestedTable = VNum 3.
Proof.
  split; [vm_compute; reflexivity|]. split; [reflexivity|].
  apply (exact_match_precedence "/a/b" nestedTable (VNum 3));
    vm_compute; reflexivity.
Defined.

(** C3 (as stated) fails: [/a/b] is a key of the table and holds [false],
    yet the lookup returns the value of the wildcard entry [/a/*]. *)
Lemma exact_match_falsy_counterexample :
  falsyExactTable !! "/a/b" = Some (VBool false) ∧
  searchMapForRoute "/a/b" falsyExactTable = VStr "wildcard" ∧
  searchMapForRoute "/a/b" falsyExactTable ≠ VBool false.
Proof. vm_compute. repeat split; congruence. Qed.

(** C2 (as amended): longest prefix wins.  When reading the table at the path
    itself gives no truthy value, neither from an entry of the table nor from
    what the table inherits, the wildcard keys are tested from the full
    segment count [n] down to [1], and the value returned is the one the
    table stores under the key with the greatest number [i] of segments among
    those that hold a truthy value. *)
Theorem longest_prefix_wins (pathname : string) (routes : gmap string val)
    (i : nat) :
  truthy (read routes pathname) = false →
  (1 ≤ i ≤ length (split "/" pathname)) →
  truthy (get routes (wildcardKey (split "/" pathname) i)) = true →
  (∀ j, (i < j ≤ length (split "/" pathname)) →
        truthy (get routes (wildcardKey (split "/" pathname) j)) = false) →
  searchMapForRoute pathname routes
  = get routes (wildcardKey (split "/" pathname) i).
Proof. apply searchMapForRoute_wildcard. Qed.

Lemma longest_prefix_wins_witness :
  wildcardKey (split "/" "/a/b/c") 3 = "/a/b/*" ∧
  searchMapForRoute "/a/b/c" nestedTable = VNum 2.
Proof.
  split; [reflexivity|].
  change (VNum 2) with (get nestedTable (wildcardKey (split "/" "/a/b/c") 3)).
  apply (longest_prefix_wins "/a/b/c" nestedTable 3).
  - vm_compute; reflexivity.
  - vm_compute; lia.
  - vm_compute; reflexivity.
  - intros j Hj. assert (j = 4) as -> by (vm_compute in Hj; lia).
    vm_compute; reflexivity.
Defined.

(** C2 (as stated) fails: the table has no entry for [/a/b/c], the longest
    wildcard pattern of the table among those tested is [/a/b/*], and the
    lookup returns the value stored under [/a/*] instead, because the value
    under [/a/b/*] is falsy. *)
Lemma longest_prefix_falsy_counterexample :
  falsyWildcardTable !! "/a/b/c" = None ∧
  head (filter (λ k, is_Some (falsyWildcardTable !! k)) (wildcardKeys "/a/b/c"))
    = Some "/a/b/*" ∧
  falsyWildcardTable !! "/a/b/*" = Some (VNum 0) ∧
  falsyWildcardTable !! "/a/*" = Some (VNum 1) ∧
  searchMapForRoute "/a/b/c" falsyWildcardTable = VNum 1.
Proof. vm_compute. repeat split. Qed.

(** C4 (as amended): segment boundaries and absence.  The pattern [/a/*] is
    among the patterns tested for [/a], [/a/b] and [/a/b/c] and not among
    those tested for [/ab]; a truthy value stored under it is what those
    three lookups return, and the lookup of [/ab] returns [undefined].  In
    every table, a path that is not the name of a property the table
    inherits, with no exact entry and no entry under any pattern tested for
    it, is looked up as [undefined]; every path that starts with a slash is
    such a path, and so [/z] is looked up as [undefined] in a table holding
    only [/a/*]. *)
Theorem wildcard_boundaries_and_absence :
  (matchesWildcard "/a/*" "/a" ∧ matchesWildcard "/a/*" "/a/b" ∧
   matchesWildcard "/a/*" "/a/b/c" ∧ ¬ matchesWildcard "/a/*" "/ab") ∧
  (∀ v, truthy v = true →
        searchMapForRoute "/a" {[ "/a/*" := v ]} = v ∧
        searchMapForRoute "/a/b" {[ "/a/*" := v ]} = v ∧
        searchMapForRoute "/a/b/c" {[ "/a/*" := v ]} = v) ∧
  (∀ v, searchMapForRoute "/ab" {[ "/a/*" := v ]} = VUndef) ∧
  (∀ pathname routes,
     objectPrototype !! pathname = None →
     routes !! pathname = None →
     (∀ pattern, matchesWildcard pattern pathname → routes !! pattern = None) →
     searchMapForRoute pathname routes = VUndef) ∧
  (∀ rest routes,
     routes !! String "/" rest = None →
     (∀ pattern, matchesWildcard pattern (String "/" rest) →
                 routes !! pattern = None) →
     searchMapForRoute (String "/" rest) routes = VUndef) ∧
  (∀ v, searchMapForRoute "/z" {[ "/a/*" := v ]} = VUndef).
Proof.
  assert (Habsent : ∀ pathname (routes : gmap string val),
     objectPrototype !! pathname = None →
     routes !! pathname = None →
     (∀ pattern, matchesWildcard pattern pathname → routes !! pattern = None) →
     searchMapForRoute pathname routes = VUndef).
  { intros pathname routes Hproto Hexact Hnone. unfold searchMapForRoute.
    rewrite (read_get _ _ Hproto), (get_None _ _ Hexact). cbn [truthy].
    apply searchWildcard_none. intros j Hj.
    rewrite get_None; [reflexivity|].
    apply Hnone, elem_of_wildcardKeys. by exists j. }
  assert (Hother : ∀ rest v,
     String "/" rest ≠ "/a/*" → ¬ matchesWildcard "/a/*" (String "/" rest) →
     searchMapForRoute (String "/" rest) ({[ "/a/*" := v ]} : gmap string val)
     = VUndef).
  { intros rest v Hne Hnot. apply Habsent.
    - apply objectPrototype_slash.
    - by apply lookup_singleton_ne.
    - intros pattern Hmatch. apply lookup_singleton_ne. by intros <-. }
  assert (Hhit : ∀ rest i v,
     String "/" rest ≠ "/a/*" →
     (1 ≤ i ≤ length (split "/" (String "/" rest))) →
     wildcardKey (split "/" (String "/" rest)) i = "/a/*" →
     (∀ j, (i < j ≤ length (split "/" (String "/" rest))) →
           wildcardKey (split "/" (String "/" rest)) j ≠ "/a/*") →
     truthy v = true →
     searchMapForRoute (String "/" rest) ({[ "/a/*" := v ]} : gmap string val)
     = v).
  { intros rest i v Hne Hi Hkey Hlonger Htruthy.
    rewrite (searchMapForRoute_wildcard (String "/" rest) _ i); [| |done| |].
    - unfold get. by rewrite Hkey, lookup_singleton_eq.
    - rewrite (read_get _ _ (objectPrototype_slash rest)).
      rewrite get_None; [done|]. by apply lookup_singleton_ne.
    - unfold get. by rewrite Hkey, lookup_singleton_eq.
    - intros j Hj. rewrite get_None; [done|].
      apply lookup_singleton_ne. intros Heq. by apply (Hlonger j). }
  split; [|split; [|split; [|split; [|split]]]].
  - unfold matchesWildcard. repeat split; compute_done.
  - intros v Htruthy. repeat split.
    + apply (Hhit "a" 2); [done|vm_compute; lia|done| |done].
      intros j Hj. vm_compute in Hj. lia.
    + apply (Hhit "a/b" 2); [done|vm_compute; lia|done| |done].
      intros j Hj. assert (j = 3) as -> by (vm_compute in Hj; lia). done.
    + apply (Hhit "a/b/c" 2); [done|vm_compute; lia|done| |done].
      intros j Hj.
      assert (j = 3 ∨ j = 4) as [-> | ->] by (vm_compute in Hj; lia);
        done.
  - intros v. apply (Hother "ab"); [done|]. unfold matchesWildcard. compute_done.
  - exact Habsent.
  - intros rest routes. apply Habsent, objectPrototype_slash.
  - intros v. apply (Hother "z"); [done|]. unfold matchesWildcard. compute_done.
Qed.

Lemma wildcard_boundaries_and_absence_witness :
  searchMapForRoute "/a/b" {[ "/a/*" := VNum 1 ]} = VNum 1 ∧
  searchMapForRoute "/z/y" nestedTable = VUndef ∧
  searchMapForRoute "about" nestedTable = VUndef.
Proof.
  destruct wildcard_boundaries_and_absence
    as (_ & Hhit & _ & Habsent & Hslash & _).
  split; [|split].
  - apply (Hhit (VNum 1)). reflexivity.
  - apply (Hslash "z/y" nestedTable); [vm_compute; reflexivity|].
    intros pattern Hmatch. unfold matchesWildcard in Hmatch.
    vm_compute in Hmatch.
    apply elem_of_cons in Hmatch as [-> | Hmatch]; [vm_compute; reflexivity|].
    apply elem_of_cons in Hmatch as [-> | Hmatch]; [vm_compute; reflexivity|].
    apply elem_of_cons in Hmatch as [-> | Hmatch]; [vm_compute; reflexivity|].
    by apply elem_of_nil in Hmatch.
  - apply (Habsent "about" nestedTable);
      [vm_compute; reflexivity|vm_compute; reflexivity|].
    intros pattern Hmatch. unfold matchesWildcard in Hmatch.
    vm_compute in Hmatch.
    apply elem_of_cons in Hmatch as [-> | Hmatch]; [vm_compute; reflexivity|].
    by apply elem_of_nil in Hmatch.
Defined.

(** C4 (as stated) fails twice.  The path [/a/b] is matched by the entry
    [/a/*] of the table, and the lookup returns [undefined], not the entry,
    because the value of the entry is falsy.  The empty table has no entry
    for the path [constructor] and no entry under a pattern tested for it,
    and the lookup returns what every object inherits under that name, not
    [undefined]. *)
Lemma wildcard_absence_counterexample :
  (matchesWildcard "/a/*" "/a/b" ∧
   ({[ "/a/*" := VNum 0 ]} : gmap string val) !! "/a/*" = Some (VNum 0) ∧
   searchMapForRoute "/a/b" {[ "/a/*" := VNum 0 ]} = VUndef) ∧
  ((∅ : gmap string val) !! "constructor" = None ∧
   (∀ pattern, matchesWildcard pattern "constructor" →
               (∅ : gmap string val) !! pattern = None) ∧
   searchMapForRoute "constructor" ∅ = VBuiltin "Object" ∧
   searchMapForRoute "constructor" ∅ ≠ VUndef).
Proof.
  split; [split; [|split]|split; [|split; [|split]]].
  - unfold matchesWildcard. compute_done.
  - vm_compute; reflexivity.
  - vm_compute; reflexivity.
  - reflexivity.
  - intros pattern _. apply lookup_empty.
  - vm_compute; reflexivity.
  - vm_compute. congruence.
Qed.

(** ** The middleware and the decision function *)

(** The three ways through [guardMiddleware] (index.ts 100-107). *)
Lemma guardMiddleware_run (params : GenerateGuardedRoutesParams)
    (request : NextRequest) (response : val) (s : State) :
  let api := generateGuardedRoutes params in
  let accessor :=
    getApplicationGuardedRoutes (initValue params) (applicationGuardedRoutes params) in
  guardMiddleware api request response s
  = match isPathAllowed api (pathname (nextUrl request)) s with
    | (Ok true, s1) => (Ok response, s1)
    | (Ok false, s1) => middlewareReject params accessor (nextUrl request) s1
    | (Throw e, s1) =>
        middlewareReject params accessor (nextUrl request) (console_error e s1)
    end.
Proof.
  cbn [generateGuardedRoutes isPathAllowed guardMiddleware].
  unfold mbind, M_bind, tryCatch.
  by destruct (isPathAllowedWithGetApplicationGuardedRoutes params _ _ s)
    as [[[]|e] s1].
Qed.

(** C1: the contract of [guardMiddleware].  When the decision resolves
    [true] the supplied response is returned as it is; when it resolves
    [false] the result is that of the rejection handler applied to the
    configuration accessor and [request.nextUrl]; when it throws or rejects,
    the failure is logged, not propagated, and the result is again that of
    the rejection handler. *)
Theorem guardMiddleware_contract (params : GenerateGuardedRoutesParams)
    (request : NextRequest) (response : val) (s : State) :
  let api := generateGuardedRoutes params in
  let accessor :=
    getApplicationGuardedRoutes (initValue params) (applicationGuardedRoutes params) in
  (∀ s1, isPathAllowed api (pathname (nextUrl request)) s = (Ok true, s1) →
         guardMiddleware api request response s = (Ok response, s1)) ∧
  (∀ s1, isPathAllowed api (pathname (nextUrl request)) s = (Ok false, s1) →
         guardMiddleware api request response s
         = middlewareReject params accessor (nextUrl request) s1) ∧
  (∀ e s1, isPathAllowed api (pathname (nextUrl request)) s = (Throw e, s1) →
         guardMiddleware api request response s
         = middlewareReject params accessor (nextUrl request) (console_error e s1)).
Proof.
  intros api accessor.
  repeat split; intros; subst api; rewrite guardMiddleware_run; cbn zeta;
    by match goal with H : _ = (_, _) |- _ => rewrite H end.
Qed.

Lemma guardMiddleware_contract_witness :
  fst (guardMiddleware (generateGuardedRoutes failingGuide)
         (requestFor "/public") (VStr "next") guideState) = Ok (VStr "next") ∧
  fst (guardMiddleware (generateGuardedRoutes failingGuide)
         (requestFor "/admin-only-route") (VStr "next") guideState) = Ok (VNum 404) ∧
  fst (guardMiddleware (generateGuardedRoutes failingGuide)
         (requestFor "/special-route") (VStr "next") guideState) = Ok (VNum 404) ∧
  console (snd (guardMiddleware (generateGuardedRoutes failingGuide)
         (requestFor "/special-route") (VStr "next") guideState))
  = [Raised (VStr "check failed")].
Proof.
  pose proof (guardMiddleware_contract failingGuide (requestFor "/public")
                (VStr "next") guideState) as (Hpass & _ & _).
  pose proof (guardMiddleware_contract failingGuide (requestFor "/admin-only-route")
                (VStr "next") guideState) as (_ & Hdeny & _).
  pose proof (guardMiddleware_contract failingGuide (requestFor "/special-route")
                (VStr "next") guideState) as (_ & _ & Hthrow).
  split; [|split; [|split]].
  - rewrite (Hpass (snd (isPathAllowed (generateGuardedRoutes failingGuide)
                           "/public" guideState)));
      [reflexivity|by_outcome].
  - rewrite (Hdeny (snd (isPathAllowed (generateGuardedRoutes failingGuide)
                           "/admin-only-route" guideState)));
      [reflexivity|by_outcome].
  - rewrite (Hthrow (Raised (VStr "check failed"))
               (snd (isPathAllowed (generateGuardedRoutes failingGuide)
                       "/special-route" guideState)));
      [reflexivity|by_outcome].
  - rewrite (Hthrow (Raised (VStr "check failed"))
               (snd (isPathAllowed (generateGuardedRoutes failingGuide)
                       "/special-route" guideState)));
      [vm_compute; reflexivity|by_outcome].
Defined.

(** ** The store under allocation and update *)

Lemma frame_refl (init : nat) (s : State) : frame init s s.
Proof. by constructor. Qed.

Lemma frame_trans (init : nat) (s1 s2 s3 : State) :
  frame init s1 s2 → frame init s2 s3 → frame init s1 s3.
Proof.
  intros [Ha1 Hl1 Ho1] [Ha2 Hl2 Ho2]. constructor.
  - by etrans.
  - lia.
  - intros l props Hne Hl. by apply Ho2, Ho1.
Qed.

Lemma freshIn_mono (s s' : State) (v : val) :
  length (arrs s) ≤ length (arrs s') → length (objs s) ≤ length (objs s') →
  freshIn s' v → freshIn s v.
Proof. destruct v; cbn; lia. Qed.

Lemma extends_refl (init : nat) (s : State) : extends init s s.
Proof. constructor; auto using frame_refl. Qed.

Lemma extends_trans (init : nat) (s1 s2 s3 : State) :
  extends init s1 s2 → extends init s2 s3 → extends init s1 s3.
Proof.
  intros E1 E2. constructor.
  - eapply frame_trans; [apply E1|apply E2].
  - intros key. destruct (ext_init _ _ _ E2 key) as [Heq|Hfresh].
    + rewrite Heq. apply E1.
    + right. eapply freshIn_mono; [| |exact Hfresh].
      * apply prefix_length, E1.
      * apply E1.
  - etrans; [apply E2|apply E1].
  - etrans; [apply E2|apply E1].
  - etrans; [apply E2|apply E1].
Qed.

Lemma frame_arrElems (init : nat) (s s' : State) (a : nat) :
  frame init s s' → a < length (arrs s) → arrElems s' a = arrElems s a.
Proof.
  intros [Hpre _ _] Ha. unfold arrElems.
  destruct (lookup_lt_is_Some_2 _ _ Ha) as [elems Helems].
  by rewrite Helems, (prefix_lookup_Some _ _ _ _ Helems Hpre).
Qed.

Lemma frame_objProps (init : nat) (s s' : State) (l : nat) :
  frame init s s' → l < length (objs s) → l ≠ init →
  objProps s' l = objProps s l.
Proof.
  intros [_ _ Hobjs] Hl Hne. unfold objProps.
  destruct (lookup_lt_is_Some_2 _ _ Hl) as [props Hprops].
  by rewrite Hprops, (Hobjs _ _ Hne Hprops).
Qed.

(** An allocated value other than the object at [init] reads the same. *)
Lemma frame_ownProps (init : nat) (s s' : State) (v : val) :
  frame init s s' → allocatedIn init s v → ownProps s' v = ownProps s v.
Proof.
  intros Hframe Hv. destruct v; cbn in *; try reflexivity.
  - by rewrite (frame_arrElems init s s').
  - destruct Hv. by apply (frame_objProps init).
Qed.

Lemma frame_iterate (init : nat) (s s' : State) (v : val) :
  frame init s s' → allocatedIn init s v → iterate s' v = iterate s v.
Proof.
  intros Hframe Hv. destruct v; cbn in *; try reflexivity.
  by rewrite (frame_arrElems init s s').
Qed.

(** ** One category of one fragment ([mergeKey]) *)

(** The three branches of index.ts 80-84, with the state each one leaves. *)
Lemma mergeKey_run (acc : nat) (curr : val) (key : string) (s : State) :
  mergeKey acc curr key s =
  let accKey := get (objProps s acc) key in
  let currKey := get (ownProps s curr) key in
  if isArray accKey then
    match iterate s currKey with
    | None => (Throw (TypeError "curr[key] is not iterable"), s)
    | Some currElems =>
        let s1 := set_arrs (λ h, h ++ [default [] (iterate s accKey) ++ currElems]) s in
        (Ok tt, set_objs (λ h, <[acc := <[key := VArr (length (arrs s))]> (objProps s1 acc)]> h) s1)
    end
  else if truthy currKey then
    let s1 := set_objs (λ h, h ++ [ownProps s currKey ∪ ownProps s accKey]) s in
    (Ok tt, set_objs (λ h, <[acc := <[key := VObj (length (objs s))]> (objProps s1 acc)]> h) s1)
  else (Ok tt, s).
Proof.
  unfold mergeKey, mbind, M_bind, gets. cbn zeta.
  destruct (isArray (get (objProps s acc) key)).
  - by destruct (iterate s (get (ownProps s curr) key)).
  - by destruct (truthy (get (ownProps s curr) key)).
Qed.

Lemma get_insert (props : gmap string val) (key key' : string) (v : val) :
  get (<[key := v]> props) key' = if decide (key = key') then v else get props key'.
Proof. unfold get. rewrite lookup_insert. by case_decide. Qed.

Lemma objProps_app (s : State) (props : gmap string val) (l : nat) :
  l < length (objs s) →
  objProps (set_objs (λ h, h ++ [props]) s) l = objProps s l.
Proof. intros Hl. unfold objProps. cbn. by rewrite lookup_app_l. Qed.

Lemma objProps_insert (s : State) (props : gmap string val) (l l' : nat) :
  l < length (objs s) →
  objProps (set_objs (λ h, <[l := props]> h) s) l'
  = if decide (l = l') then props else objProps s l'.
Proof.
  intros Hl. unfold objProps. cbn. case_decide as Heq.
  - subst l'. by rewrite list_lookup_insert_eq.
  - by rewrite list_lookup_insert_ne.
Qed.

Lemma mergeKey_extends (acc : nat) (curr : val) (key : string) (s : State)
    (r : result unit) (s' : State) :
  acc < length (objs s) →
  mergeKey acc curr key s = (r, s') → extends acc s s'.
Proof.
  intros Hacc. rewrite mergeKey_run. cbn zeta.
  destruct (isArray (get (objProps s acc) key)) eqn:Harr.
  - destruct (iterate s (get (ownProps s curr) key)) as [currElems|];
      intros [= <- <-]; [|apply extends_refl].
    constructor; cbn; try done.
    + constructor; cbn.
      * by apply prefix_app_r.
      * by rewrite length_insert.
      * intros l props Hne Hl. by rewrite list_lookup_insert_ne.
    + intros key'. rewrite objProps_insert by done.
      rewrite decide_True by done. rewrite get_insert. case_decide.
      * right. cbn. done.
      * by left.
  - destruct (truthy (get (ownProps s curr) key)); intros [= <- <-];
      [|apply extends_refl].
    constructor; cbn; try done.
    + constructor; cbn.
      * done.
      * rewrite length_insert, length_app. lia.
      * intros l props Hne Hl. rewrite list_lookup_insert_ne by done.
        by apply lookup_app_l_Some.
    + intros key'. rewrite objProps_insert by (cbn; rewrite length_app; lia).
      rewrite decide_True by done. rewrite get_insert. case_decide.
      * right. cbn. done.
      * left. by rewrite objProps_app.
Qed.

(** ** The reduction over the fragments *)

Lemma forEachM_mergeKey_extends (acc : nat) (curr : val) (keys : list string)
    (s : State) (r : result unit) (s' : State) :
  acc < length (objs s) →
  forEachM (mergeKey acc curr) keys s = (r, s') → extends acc s s'.
Proof.
  revert s. induction keys as [|key keys IH]; intros s Hacc.
  - intros [= <- <-]. apply extends_refl.
  - rewrite run_forEachM_cons.
    destruct (mergeKey acc curr key s) as [[[]|e] s1] eqn:Hkey.
    + intros Hrest. pose proof (mergeKey_extends _ _ _ _ _ _ Hacc Hkey) as E1.
      eapply extends_trans; [exact E1|]. eapply IH; [|exact Hrest].
      pose proof (frame_length _ _ _ (ext_frame _ _ _ E1)). lia.
    + intros [= <- <-]. by eapply mergeKey_extends.
Qed.

(** The reducer returns the accumulator it was given, or throws. *)
Lemma reducer_extends (acc : nat) (curr : val) (s : State)
    (r : result nat) (s' : State) :
  acc < length (objs s) →
  reducer acc curr s = (r, s') →
  extends acc s s' ∧ (r = Ok acc ∨ ∃ e, r = Throw e).
Proof.
  intros Hacc. unfold reducer, mbind, M_bind, gets, mret, M_ret.
  destruct (forEachM (mergeKey acc curr) _ s) as [[[]|e] s1] eqn:Hloop;
    intros [= <- <-].
  - split; [by eapply forEachM_mergeKey_extends|by left].
  - split; [by eapply forEachM_mergeKey_extends|right; by exists e].
Qed.

Lemma reduceM_reducer_extends (init : nat) (fragments : list val) (s : State)
    (r : result nat) (s' : State) :
  init < length (objs s) →
  reduceM reducer fragments init s = (r, s') →
  extends init s s' ∧ (r = Ok init ∨ ∃ e, r = Throw e).
Proof.
  revert s. induction fragments as [|curr rest IH]; intros s Hinit.
  - intros [= <- <-]. split; [apply extends_refl|by left].
  - cbn [reduceM]. rewrite run_bind.
    destruct (reducer init curr s) as [[acc'|e] s1] eqn:Hcurr.
    + destruct (reducer_extends _ _ _ _ _ Hinit Hcurr) as [E1 [[= ->]|[? [=]]]].
      intros Hrest. destruct (IH s1) with (2 := Hrest) as [E2 Hr].
      { pose proof (frame_length _ _ _ (ext_frame _ _ _ E1)). lia. }
      split; [by eapply extends_trans|done].
    + intros [= <- <-].
      destruct (reducer_extends _ _ _ _ _ Hinit Hcurr) as [E1 _].
      split; [done|right; by exists e].
Qed.

(** ** The accessor ([getApplicationGuardedRoutes]) *)

(** With a truthy cache the accessor returns it and does nothing else. *)
Lemma accessor_cached (init : nat) (fragments : list val) (s : State) :
  truthy (mergedApplicationGuardedRoutes s) = true →
  getApplicationGuardedRoutes init fragments s
  = (Ok (mergedApplicationGuardedRoutes s), s).
Proof.
  intros Hcached. unfold getApplicationGuardedRoutes.
  rewrite run_bind. cbn [gets]. by rewrite Hcached.
Qed.

(** Without one it runs the reduction, and caches what it returns. *)
Lemma accessor_uncached (init : nat) (fragments : list val) (s : State) :
  truthy (mergedApplicationGuardedRoutes s) = false →
  getApplicationGuardedRoutes init fragments s
  = match reduceM reducer fragments init s with
    | (Ok merged, s1) => (Ok (VObj merged), set_merged (VObj merged) s1)
    | (Throw e, s1) => (Throw e, s1)
    end.
Proof.
  intros Hcached. unfold getApplicationGuardedRoutes.
  rewrite run_bind. cbn [gets]. rewrite Hcached. rewrite run_bind.
  by destruct (reduceM reducer fragments init s) as [[merged|e] s1].
Qed.

Lemma frame_set_merged (init : nat) (v : val) (s s' : State) :
  frame init s s' → frame init s (set_merged v s').
Proof. intros [Ha Hl Ho]. by constructor. Qed.

(** Every outcome of the accessor: the cache, or a reduction that starts
    from the object at [init] and ends in that same object or in a throw. *)
Lemma accessor_outcome (init : nat) (fragments : list val) (s : State)
    (r : result val) (s' : State) :
  init < length (objs s) →
  getApplicationGuardedRoutes init fragments s = (r, s') →
  (truthy (mergedApplicationGuardedRoutes s) = true ∧
   r = Ok (mergedApplicationGuardedRoutes s) ∧ s' = s) ∨
  (truthy (mergedApplicationGuardedRoutes s) = false ∧
   ∃ s1, extends init s s1 ∧
     ((r = Ok (VObj init) ∧ s' = set_merged (VObj init) s1) ∨
      (∃ e, r = Throw e ∧ s' = s1))).
Proof.
  intros Hinit.
  destruct (truthy (mergedApplicationGuardedRoutes s)) eqn:Hcached.
  - rewrite accessor_cached by done. intros [= <- <-]. by left.
  - rewrite accessor_uncached by done.
    destruct (reduceM reducer fragments init s) as [[merged|e] s1] eqn:Hred;
      destruct (reduceM_reducer_extends _ _ _ _ _ Hinit Hred) as [E Hr];
      intros [= <- <-]; right; (split; [done|]); exists s1; (split; [done|]).
    + left. by destruct Hr as [[= ->]|[? [=]]].
    + right. by exists e.
Qed.

Lemma accessor_preserves (init : nat) (fragments : list val) (s : State)
    (r : result val) (s' : State) :
  init < length (objs s) →
  getApplicationGuardedRoutes init fragments s = (r, s') → frame init s s'.
Proof.
  intros Hinit Hrun.
  destruct (accessor_outcome _ _ _ _ _ Hinit Hrun)
    as [(_ & _ & ->)|(_ & s1 & E & [[_ ->]|(e & _ & ->)])].
  - apply frame_refl.
  - apply frame_set_merged, E.
  - apply E.
Qed.

(** C6 (as amended): memoization.  Once a call of the accessor has returned a
    configuration [v], every later call returns that same reference and
    leaves the state as it is, whatever the fragment list has become.  After
    the first access, [v] is the object at [init]; overwriting arrays and
    objects that existed before that access (the fragment objects and their
    category containers among them) changes neither the reference returned,
    nor the properties of the merged object, nor the content of any category
    the merge has produced. *)
Theorem accessor_memoized (init : nat) (fragments : list val) (s : State)
    (v : val) (s1 : State) :
  init < length (objs s) →
  getApplicationGuardedRoutes init fragments s = (Ok v, s1) →
  (∀ fragments', getApplicationGuardedRoutes init fragments' s1 = (Ok v, s1)) ∧
  (mergedApplicationGuardedRoutes s = VUndef →
   v = VObj init ∧
   ∀ fragments' s2, overwritten init s s1 s2 →
     getApplicationGuardedRoutes init fragments' s2 = (Ok v, s2) ∧
     ownProps s2 v = ownProps s1 v ∧
     ∀ key, get (ownProps s1 v) key ≠ get (ownProps s v) key →
       ownProps s2 (get (ownProps s1 v) key) = ownProps s1 (get (ownProps s1 v) key) ∧
       iterate s2 (get (ownProps s1 v) key) = iterate s1 (get (ownProps s1 v) key)).
Proof.
  intros Hinit Hrun.
  destruct (accessor_outcome _ _ _ _ _ Hinit Hrun)
    as [(Hcached & [= ->] & ->)|(Hcached & s1' & E & [[[= ->] ->]|(e & [=] & _)])].
  - split.
    + intros fragments'. by apply accessor_cached.
    + intros Hundef. by rewrite Hundef in Hcached.
  - split.
    + intros fragments'. by rewrite accessor_cached.
    + intros _. split; [done|]. intros fragments' s2 [Hm Hi Ho Ha].
      cbn in Hm, Hi, Ho, Ha. split; [|split].
      * rewrite accessor_cached; rewrite Hm; done.
      * cbn. unfold objProps. cbn. by rewrite Hi.
      * cbn [ownProps]. change (objProps (set_merged (VObj init) s1') init)
          with (objProps s1' init).
        intros key Hchanged.
        destruct (ext_init _ _ _ E key) as [Heq|Hfresh]; [done|].
        destruct (get (objProps s1' init) key) as [| | | | | |a|l|]; try done.
        -- cbn in Hfresh |- *. unfold arrElems. cbn. by rewrite (Ha a).
        -- cbn in Hfresh |- *. unfold objProps. cbn. by rewrite (Ho l).
Qed.

Lemma accessor_memoized_witness :
  let s2 := set_objs (λ h, <[4 := ∅]> (<[5 := ∅]> h)) editorMerged in
  getApplicationGuardedRoutes 0 [] editorMerged = (Ok (VObj 0), editorMerged) ∧
  getApplicationGuardedRoutes 0 [VObj 4] s2 = (Ok (VObj 0), s2) ∧
  ownProps s2 (VObj 0) = ownProps editorMerged (VObj 0).
Proof.
  intros s2.
  destruct (accessor_memoized 0 [VObj 4] editorState (VObj 0) editorMerged)
    as [Hlater Hfirst].
  - change (length (objs editorState)) with 6. lia.
  - by_outcome.
  - split; [apply Hlater|].
    destruct (Hfirst eq_refl) as [_ Hover].
    destruct (Hover [VObj 4] s2) as (Hsame & Hprops & _); [|by split].
    constructor.
    + reflexivity.
    + unfold s2, set_objs. cbn [objs].
      rewrite !list_lookup_insert_ne by lia. reflexivity.
    + change (length (objs editorState)) with 6. intros l Hl.
      unfold s2, set_objs. cbn [objs].
      rewrite !list_lookup_insert_ne by lia. reflexivity.
    + intros a _. unfold s2, set_objs. cbn [arrs]. reflexivity.
Defined.

(** C6 (as stated) fails: the merge is shallow, so the values stored inside
    the categories are shared with the fragments.  After the first access,
    pushing ["admin"] onto the role list that the fragment (object 4) holds
    for [/x] changes what the cached configuration holds for [/x], and with
    it the decision for [/x]. *)
Lemma memoized_shared_leaf_counterexample :
  let s2 := push 0 (VStr "admin") editorMerged in
  get (ownProps editorMerged (get (ownProps editorMerged (VObj 4)) "roleBasedRoutes")) "/x"
    = VArr 0 ∧
  fst (getApplicationGuardedRoutes 0 [VObj 4] editorMerged) = Ok (VObj 0) ∧
  fst (getApplicationGuardedRoutes 0 [VObj 4] s2) = Ok (VObj 0) ∧
  readRoute editorMerged (VObj 0) "roleBasedRoutes" "/x" = [VStr "editor"] ∧
  readRoute s2 (VObj 0) "roleBasedRoutes" "/x" = [VStr "editor"; VStr "admin"] ∧
  (∀ getFlags callFunction,
     fst (isPathAllowed (generateGuardedRoutes (adminGuide getFlags callFunction))
            "/x" editorMerged) = Ok true ∧
     fst (isPathAllowed (generateGuardedRoutes (adminGuide getFlags callFunction))
            "/x" s2) = Ok false).
Proof.
  intros s2.
  split; [vm_compute; reflexivity|]. split; [vm_compute; reflexivity|].
  split; [vm_compute; reflexivity|]. split; [vm_compute; reflexivity|].
  split; [vm_compute; reflexivity|].
  intros getFlags callFunction. split; vm_compute; reflexivity.
Qed.

(** When the reduction throws, nothing is cached: the next call runs it
    again, on the initial value as the failed attempt left it. *)
Example merge_retried_after_throw :
  let accessor := getApplicationGuardedRoutes 0 [VObj 1; VObj 2] in
  let s1 := snd (accessor mixedState) in
  let s2 := snd (accessor s1) in
  fst (accessor mixedState) = Throw (TypeError "curr[key] is not iterable") ∧
  mergedApplicationGuardedRoutes s1 = VUndef ∧
  iterate s1 (get (objProps s1 0) "roles") = Some [VStr "admin"] ∧
  fst (accessor s1) = Throw (TypeError "curr[key] is not iterable") ∧
  iterate s2 (get (objProps s2 0) "roles") = Some [VStr "admin"; VStr "admin"].
Proof. vm_compute. done. Qed.

(** ** What the calls leave unchanged *)

Lemma preserves_ret {A} (init : nat) (a : A) : preserves init (mret a : M A).
Proof. intros s r s' _ [= <- <-]. apply frame_refl. Qed.

Lemma preserves_throw {A} (init : nat) (e : exn) : preserves init (throw e : M A).
Proof. intros s r s' _ [= <- <-]. apply frame_refl. Qed.

Lemma preserves_gets {A} (init : nat) (f : State → A) : preserves init (gets f).
Proof. intros s r s' _ [= <- <-]. apply frame_refl. Qed.

Lemma preserves_modify (init : nat) (f : State → State) :
  (∀ s, frame init s (f s)) → preserves init (modify f).
Proof. intros Hf s r s' _ [= <- <-]. apply Hf. Qed.

Lemma preserves_bind {A B} (init : nat) (m : M A) (f : A → M B) :
  preserves init m → (∀ a, preserves init (f a)) → preserves init (m ≫= f).
Proof.
  intros Hm Hf s r s' Hinit. rewrite run_bind.
  destruct (m s) as [[a|e] s1] eqn:Hrun.
  - intros Hrest. pose proof (Hm _ _ _ Hinit Hrun) as F1.
    eapply frame_trans; [exact F1|]. eapply Hf; [|exact Hrest].
    pose proof (frame_length _ _ _ F1). lia.
  - intros [= <- <-]. by eapply Hm.
Qed.

Lemma preserves_tryCatch {A} (init : nat) (body : M A) (handler : exn → M A) :
  preserves init body → (∀ e, preserves init (handler e)) →
  preserves init (tryCatch body handler).
Proof.
  intros Hbody Hhandler s r s' Hinit. unfold tryCatch.
  destruct (body s) as [[a|e] s1] eqn:Hrun.
  - intros [= <- <-]. by eapply Hbody.
  - intros Hrest. pose proof (Hbody _ _ _ Hinit Hrun) as F1.
    eapply frame_trans; [exact F1|]. eapply Hhandler; [|exact Hrest].
    pose proof (frame_length _ _ _ F1). lia.
Qed.

Lemma preserves_accessor (init : nat) (fragments : list val) :
  preserves init (getApplicationGuardedRoutes init fragments).
Proof. intros s r s' Hinit Hrun. by eapply accessor_preserves. Qed.

Lemma preserves_getProp (init : nat) (v : val) (key : string) :
  preserves init (getProp v key).
Proof. destruct v; first [apply preserves_throw|apply preserves_gets]. Qed.

Lemma preserves_callBuiltin (init : nat) (name : string) :
  preserves init (callBuiltin name).
Proof.
  unfold callBuiltin.
  repeat case_decide; first [apply preserves_ret|apply preserves_throw].
Qed.

Section GuidePreserves.
Context (getFlags : val → M bool) (callFunction : nat → M bool) (init : nat).
Hypothesis getFlags_preserves : ∀ flags, preserves init (getFlags flags).
Hypothesis callFunction_preserves : ∀ f, preserves init (callFunction f).
Context (accessor : M val) (accessor_preserves : preserves init accessor).

Lemma preserves_searchMapForRouteOf (path : string) (routes : val) :
  preserves init (Guide.searchMapForRouteOf path routes).
Proof. destruct routes; first [apply preserves_throw|apply preserves_gets]. Qed.

Lemma preserves_record_call (name : string) :
  preserves init (modify (record_call name)).
Proof. apply preserves_modify. intros s. by constructor. Qed.

Lemma preserves_checkRouteForRole (path : string) :
  preserves init (Guide.checkRouteForRole accessor path).
Proof.
  unfold Guide.checkRouteForRole.
  apply preserves_bind; [apply preserves_record_call|intros _].
  apply preserves_bind; [done|intros config].
  apply preserves_bind; [apply preserves_getProp|intros routes].
  apply preserves_bind; [apply preserves_searchMapForRouteOf|intros roles].
  destruct (negb (truthy roles)); [apply preserves_ret|].
  apply preserves_bind; [|intros; apply preserves_ret].
  destruct roles; first [apply preserves_throw|apply preserves_gets|apply preserves_ret].
Qed.

Lemma preserves_checkRouteForFeatureFlag (path : string) :
  preserves init (Guide.checkRouteForFeatureFlag getFlags accessor path).
Proof.
  unfold Guide.checkRouteForFeatureFlag.
  apply preserves_bind; [apply preserves_record_call|intros _].
  apply preserves_bind; [done|intros config].
  apply preserves_bind; [apply preserves_getProp|intros routes].
  apply preserves_bind; [apply preserves_searchMapForRouteOf|intros flags].
  destruct (negb (truthy flags)); [apply preserves_ret|done].
Qed.

Lemma preserves_checkRouteForSpecialChecks (path : string) :
  preserves init (Guide.checkRouteForSpecialChecks callFunction accessor path).
Proof.
  unfold Guide.checkRouteForSpecialChecks.
  apply preserves_bind; [apply preserves_record_call|intros _].
  apply preserves_bind; [done|intros config].
  apply preserves_bind; [apply preserves_getProp|intros routes].
  apply preserves_bind; [apply preserves_searchMapForRouteOf|intros check].
  destruct (negb (truthy check)); [apply preserves_ret|].
  destruct check;
    first [apply preserves_throw|apply callFunction_preserves
          |apply preserves_callBuiltin].
Qed.

Lemma preserves_andAwait (a b : M bool) :
  preserves init a → preserves init b → preserves init (Guide.andAwait a b).
Proof.
  intros Ha Hb. apply preserves_bind; [done|].
  intros []; [done|apply preserves_ret].
Qed.

Lemma preserves_guide (path : string) :
  preserves init
    (Guide.isPathAllowedWithGetApplicationGuardedRoutes getFlags callFunction
       accessor path).
Proof.
  repeat apply preserves_andAwait;
    auto using preserves_checkRouteForRole, preserves_checkRouteForFeatureFlag,
               preserves_checkRouteForSpecialChecks.
Qed.

End GuidePreserves.

(** C10 (as amended): what is left unchanged.  A call of the accessor, the
    first or a later one, changes no array and no object other than the one
    at [initValue]: the fragments and everything they hold keep their
    content.  The object at [initValue] itself is the accumulator of the
    merge, and the configuration returned by the first access is that very
    object.  [isPathAllowed] and [guardMiddleware] add no change of their
    own: they preserve what the caller-supplied functions preserve. *)
Theorem fragments_left_unchanged (params : GenerateGuardedRoutesParams) :
  let init := initValue params in
  let accessor := getApplicationGuardedRoutes init (applicationGuardedRoutes params) in
  let api := generateGuardedRoutes params in
  preserves init accessor ∧
  (∀ s v s1, init < length (objs s) → mergedApplicationGuardedRoutes s = VUndef →
             accessor s = (Ok v, s1) → v = VObj init) ∧
  ((∀ acc path, preserves init acc →
      preserves init (isPathAllowedWithGetApplicationGuardedRoutes params acc path)) →
   (∀ path, preserves init (isPathAllowed api path)) ∧
   ((∀ acc url, preserves init acc →
       preserves init (middlewareReject params acc url)) →
    ∀ request response, preserves init (guardMiddleware api request response))).
Proof.
  intros init accessor api.
  assert (Hacc : preserves init accessor) by apply preserves_accessor.
  split; [done|]. split.
  - intros s v s1 Hinit Hundef Hrun.
    destruct (accessor_outcome _ _ _ _ _ Hinit Hrun)
      as [(Hcached & _)|(_ & s1' & _ & [[[= ->] _]|(e & [=] & _)])]; [|done].
    by rewrite Hundef in Hcached.
  - intros Hallowed. split; [intros path; by apply Hallowed|].
    intros Hreject request response.
    cbn [api generateGuardedRoutes guardMiddleware].
    apply preserves_bind.
    + apply preserves_tryCatch.
      * apply preserves_bind; [by apply Hallowed|intros; apply preserves_ret].
      * intros e. apply preserves_bind; [|intros; apply preserves_ret].
        apply preserves_modify. intros s. by constructor.
    + intros [r|]; [apply preserves_ret|by apply Hreject].
Qed.

Lemma fragments_left_unchanged_witness :
  frame 0 guideState
    (snd (guardMiddleware (generateGuardedRoutes failingGuide)
            (requestFor "/special-route") (VStr "next") guideState)).
Proof.
  destruct (fragments_left_unchanged failingGuide) as (_ & _ & Hcalls).
  destruct Hcalls as [_ Hmiddleware].
  { intros acc path Hacc. apply preserves_guide; [| |done].
    - intros flags. apply preserves_ret.
    - intros f. apply preserves_throw. }
  eapply Hmiddleware.
  - intros acc url Hacc. apply preserves_ret.
  - change (length (objs guideState)) with 9. cbn. lia.
  - apply surjective_pairing.
Defined.

(** C10 (as stated) fails: the first access replaces the [roleBasedRoutes]
    category of the initial value (object 0), which was the empty object 1,
    by the freshly allocated object 6 that holds the fragment's route. *)
Lemma initValue_mutated_counterexample :
  let s1 := snd (getApplicationGuardedRoutes 0 [VObj 4] adminState) in
  get (objProps adminState 0) "roleBasedRoutes" = VObj 1 ∧
  get (objProps adminState 1) "/admin/*" = VUndef ∧
  get (objProps s1 0) "roleBasedRoutes" = VObj 6 ∧
  get (objProps s1 6) "/admin/*" = VArr 0 ∧
  objs s1 !! 0 ≠ objs adminState !! 0.
Proof.
  intros s1. split; [vm_compute; reflexivity|].
  split; [vm_compute; reflexivity|]. split; [vm_compute; reflexivity|].
  split; [vm_compute; reflexivity|].
  intros Heq.
  apply (f_equal (λ o, get (default ∅ o) "roleBasedRoutes")) in Heq.
  vm_compute in Heq. discriminate.
Qed.

(** ** The effect of one fragment on each category *)

(** Merging one category leaves the other categories of the accumulator as
    they are. *)
Lemma mergeKey_other (acc : nat) (curr : val) (key key' : string) (s : State)
    (r : result unit) (s' : State) :
  acc < length (objs s) → key ≠ key' →
  mergeKey acc curr key s = (r, s') →
  get (objProps s' acc) key' = get (objProps s acc) key'.
Proof.
  intros Hacc Hne. rewrite mergeKey_run. cbn zeta.
  destruct (isArray (get (objProps s acc) key)).
  - destruct (iterate s (get (ownProps s curr) key)) as [currElems|];
      intros [= <- <-]; [|done].
    rewrite objProps_insert by done. rewrite decide_True by done.
    rewrite get_insert. by rewrite decide_False.
  - destruct (truthy (get (ownProps s curr) key)); intros [= <- <-]; [|done].
    rewrite objProps_insert by (cbn; rewrite length_app; lia).
    rewrite decide_True by done. rewrite get_insert.
    rewrite decide_False by done. by rewrite objProps_app.
Qed.

(** What has been merged for a category stays so while the state is only
    extended and the category is not written again. *)
Lemma keyMerged_stable (init : nat) (s0 : State) (curr : val) (s s' : State)
    (key : string) :
  init < length (objs s0) →
  frame init s s' →
  get (objProps s' init) key = get (objProps s init) key →
  keyMerged init s0 curr s key → keyMerged init s0 curr s' key.
Proof.
  intros Hinit [Harrs _ Hobjs] Hsame. unfold keyMerged. cbn zeta. rewrite Hsame.
  destruct (isArray (get (objProps s0 init) key)).
  - intros (currElems & a & Hiter & Hacc & Hfresh & Ha).
    exists currElems, a. repeat split; try done.
    by eapply prefix_lookup_Some.
  - destruct (truthy (get (ownProps s0 curr) key)); [|done].
    intros (l & props & Hacc & Hfresh & Hl & Hroutes). exists l, props.
    split; [done|]. split; [done|]. split; [|done].
    apply Hobjs; [lia|done].
Qed.

Section OneFragment.
Context (init : nat) (curr : val) (s0 : State).
Hypothesis init_allocated : init < length (objs s0).
Hypothesis curr_allocated : allocatedIn init s0 curr.
Hypothesis categories_allocated : ∀ key,
  allocatedIn init s0 (get (objProps s0 init) key) ∧
  allocatedIn init s0 (get (ownProps s0 curr) key).

(** One step of the loop, taken in a state [s] reached from [s0] in which
    the category [key] has not been written yet. *)
Lemma mergeKey_spec (key : string) (s : State) (r : result unit) (s1 : State) :
  extends init s0 s →
  get (objProps s init) key = get (objProps s0 init) key →
  mergeKey init curr key s = (r, s1) →
  (r = Ok tt ∧ keyMerged init s0 curr s1 key) ∨
  (∃ e, r = Throw e ∧ isArray (get (objProps s0 init) key) = true ∧
        iterate s0 (get (ownProps s0 curr) key) = None).
Proof.
  intros E Hacc.
  pose proof (ext_frame _ _ _ E) as F.
  pose proof (frame_length _ _ _ F) as Hlen.
  pose proof (prefix_length _ _ (frame_arrs _ _ _ F)) as Hlena.
  destruct (categories_allocated key) as [HaccOk HcurrOk].
  rewrite mergeKey_run. cbn zeta. unfold keyMerged. cbn zeta.
  rewrite Hacc, (frame_ownProps init s0 s curr F curr_allocated).
  rewrite !(frame_iterate init s0 s _ F) by done.
  rewrite !(frame_ownProps init s0 s _ F) by done.
  destruct (isArray (get (objProps s0 init) key)) eqn:Harr.
  - destruct (iterate s0 (get (ownProps s0 curr) key)) as [currElems|] eqn:Hiter;
      intros [= <- <-].
    + left. split; [done|]. exists currElems, (length (arrs s)).
      split; [done|]. split; [|split; [lia|]].
      * rewrite objProps_insert by (cbn; lia). rewrite decide_True by done.
        rewrite get_insert. by rewrite decide_True.
      * cbn. by rewrite list_lookup_middle.
    + right. eexists. done.
  - destruct (truthy (get (ownProps s0 curr) key)) eqn:Htruthy;
      intros [= <- <-]; left; (split; [done|]).
    + exists (length (objs s)).
      exists (ownProps s0 (get (ownProps s0 curr) key)
              ∪ ownProps s0 (get (objProps s0 init) key)).
      split; [|split; [lia|split]].
      * rewrite objProps_insert by (cbn; rewrite length_app; lia).
        rewrite decide_True by done. rewrite get_insert.
        by rewrite decide_True.
      * cbn. rewrite list_lookup_insert_ne by lia.
        by rewrite list_lookup_middle.
      * intros route. rewrite lookup_union.
        by destruct (ownProps s0 (get (ownProps s0 curr) key) !! route),
                    (ownProps s0 (get (objProps s0 init) key) !! route).
    + done.
Qed.

(** The loop over the keys of the fragment.  [seen] are the keys already
    merged. *)
Lemma forEachM_mergeKey_spec (keys seen : list string) (s : State)
    (r : result unit) (s' : State) :
  NoDup keys → (∀ key, key ∈ keys → key ∉ seen) →
  extends init s0 s →
  (∀ key, key ∈ seen → keyMerged init s0 curr s key) →
  (∀ key, key ∉ seen → get (objProps s init) key = get (objProps s0 init) key) →
  forEachM (mergeKey init curr) keys s = (r, s') →
  (r = Ok tt →
     (∀ key, key ∈ seen ∨ key ∈ keys → keyMerged init s0 curr s' key) ∧
     (∀ key, key ∉ seen → key ∉ keys →
        get (objProps s' init) key = get (objProps s0 init) key)) ∧
  ((∀ key, key ∈ keys → isArray (get (objProps s0 init) key) = true →
       is_Some (iterate s0 (get (ownProps s0 curr) key))) →
   r = Ok tt).
Proof.
  revert seen s. induction keys as [|key keys IH];
    intros seen s Hnodup Hdisj E Hseen Hunseen.
  - intros [= <- <-]. split; [|done]. intros _. split.
    + intros k [Hk|Hk]; [by apply Hseen|by apply elem_of_nil in Hk].
    + intros k Hk _. by apply Hunseen.
  - apply NoDup_cons in Hnodup as [Hfresh Hnodup].
    assert (Hkey : key ∉ seen) by (apply Hdisj; left).
    assert (Hs : init < length (objs s)).
    { pose proof (frame_length _ _ _ (ext_frame _ _ _ E)). lia. }
    rewrite run_forEachM_cons.
    destruct (mergeKey init curr key s) as [r1 s1] eqn:Hstep.
    pose proof (mergeKey_extends _ _ _ _ _ _ Hs Hstep) as E1.
    destruct (mergeKey_spec key s r1 s1 E (Hunseen key Hkey) Hstep)
      as [[-> Hmerged]|(e & -> & Harr & Hiter)].
    + intros Hrest.
      destruct (IH (key :: seen) s1) with (6 := Hrest) as [Hok Hsucceeds].
      * done.
      * intros k Hk [->|Hin]%elem_of_cons; [done|].
        apply (Hdisj k); [by right|done].
      * by eapply extends_trans.
      * intros k [->|Hin]%elem_of_cons; [done|].
        eapply keyMerged_stable; [done|apply E1| |by apply Hseen].
        eapply mergeKey_other; [exact Hs| |exact Hstep]. by intros ->.
      * intros k Hk. apply not_elem_of_cons in Hk as [Hne Hk].
        rewrite <- (Hunseen k Hk).
        eapply mergeKey_other; [exact Hs| |exact Hstep]. done.
      * split.
        -- intros Hr. destruct (Hok Hr) as [Hall Hrest']. split.
           ++ intros k [Hk|[->|Hk]%elem_of_cons]; apply Hall;
                [left; by right|left; by left|by right].
           ++ intros k Hk1 Hk2. apply not_elem_of_cons in Hk2 as [Hne Hk2].
              apply Hrest'; [|done]. by apply not_elem_of_cons.
        -- intros Hiterable. apply Hsucceeds.
           intros k Hk. apply Hiterable. by right.
    + intros [= <- <-]. split; [done|]. intros Hiterable.
      destruct (Hiterable key) as [elems Helems]; [by left|done|].
      congruence.
Qed.

(** The reducer on one fragment: it succeeds when every category of the
    fragment that meets an array of the accumulator can be spread, and then
    each category of the fragment has been merged and the others are as they
    were. *)
Lemma reducer_spec (r : result nat) (s' : State) :
  reducer init curr s0 = (r, s') →
  (r = Ok init →
     ∀ key, if decide (is_Some (ownProps s0 curr !! key))
            then keyMerged init s0 curr s' key
            else get (objProps s' init) key = get (objProps s0 init) key) ∧
  ((∀ key, is_Some (ownProps s0 curr !! key) →
       isArray (get (objProps s0 init) key) = true →
       is_Some (iterate s0 (get (ownProps s0 curr) key))) →
   r = Ok init).
Proof.
  unfold reducer, mbind, M_bind, gets, mret, M_ret.
  destruct (forEachM (mergeKey init curr) _ s0) as [r1 s1] eqn:Hloop.
  assert (Hkeys : ∀ key, key ∈ (map_to_list (ownProps s0 curr)).*1
                         ↔ is_Some (ownProps s0 curr !! key)).
  { intros key. rewrite list_elem_of_fmap. split.
    - intros ([k v] & -> & Hkv). apply elem_of_map_to_list in Hkv. by exists v.
    - intros [v Hv]. exists (key, v). split; [done|].
      by apply elem_of_map_to_list. }
  destruct (forEachM_mergeKey_spec ((map_to_list (ownProps s0 curr)).*1)
              [] s0 r1 s1) with (6 := Hloop)
    as [Hok Hsucceeds].
  - apply NoDup_fst_map_to_list.
  - intros key _. apply not_elem_of_nil.
  - apply extends_refl.
  - intros key Hkey. by apply elem_of_nil in Hkey.
  - done.
  - destruct r1 as [[]|e]; intros [= <- <-]; split.
    + intros _ key. destruct (Hok eq_refl) as [Hall Hrest]. case_decide as Hin.
      * apply Hall. right. by apply Hkeys.
      * apply Hrest; [apply not_elem_of_nil|]. by rewrite Hkeys.
    + done.
    + done.
    + intros Hiterable. exfalso.
      assert (Throw e = Ok tt :> result unit) as [=].
      apply Hsucceeds. intros key Hkey. apply Hiterable. by apply Hkeys.
Qed.

End OneFragment.

(** ** The merge *)

(** C5: merge semantics.  From a state in which nothing is cached, the
    accessor folds the fragments in the order of the list, starting from the
    object at [init]: with no fragment it returns that object, and with a
    first fragment [curr] it runs the reducer on [curr] and goes on with the
    rest.  The reducer on [curr] succeeds when every category of [curr] that
    meets an array of the accumulator can be spread; and when it succeeds,
    for each category [key] of [curr]: if the accumulator holds an array
    under [key], it now holds a new array, the old elements followed by the
    fragment's; otherwise, if the fragment's value is truthy, it now holds a
    new object in which each route has the fragment's value when the
    fragment has the route and the accumulator's value otherwise (the values
    themselves are not copied); otherwise it holds what it held.  Categories
    that [curr] does not have are as they were.  The fragment and the
    category values are taken to be allocated and distinct from the
    accumulator object itself. *)
Theorem merge_semantics (init : nat) (s : State) :
  init < length (objs s) →
  (mergedApplicationGuardedRoutes s = VUndef →
     getApplicationGuardedRoutes init [] s
       = (Ok (VObj init), set_merged (VObj init) s) ∧
     ∀ curr rest,
       getApplicationGuardedRoutes init (curr :: rest) s
       = match reducer init curr s with
         | (Ok _, s1) => getApplicationGuardedRoutes init rest s1
         | (Throw e, s1) => (Throw e, s1)
         end) ∧
  (∀ curr,
     allocatedIn init s curr →
     (∀ key, allocatedIn init s (get (objProps s init) key) ∧
             allocatedIn init s (get (ownProps s curr) key)) →
     ((∀ key, is_Some (ownProps s curr !! key) →
          isArray (get (objProps s init) key) = true →
          is_Some (iterate s (get (ownProps s curr) key))) →
      ∃ s1, reducer init curr s = (Ok init, s1)) ∧
     (∀ s1, reducer init curr s = (Ok init, s1) →
        ∀ key, if decide (is_Some (ownProps s curr !! key))
               then keyMerged init s curr s1 key
               else get (objProps s1 init) key = get (objProps s init) key)).
Proof.
  intros Hinit. split.
  - intros Hundef.
    assert (Hfalsy : truthy (mergedApplicationGuardedRoutes s) = false)
      by (by rewrite Hundef).
    split; [by rewrite accessor_uncached|].
    intros curr rest. rewrite accessor_uncached by done.
    cbn [reduceM]. rewrite run_bind.
    destruct (reducer init curr s) as [[acc'|e] s1] eqn:Hcurr; [|done].
    destruct (reducer_extends _ _ _ _ _ Hinit Hcurr) as [E [[= ->]|[? [=]]]].
    rewrite accessor_uncached; [done|].
    by rewrite (ext_merged _ _ _ E).
  - intros curr Hcurr Hcats. split.
    + intros Hiterable.
      destruct (reducer init curr s) as [r s1] eqn:Hrun.
      destruct (reducer_spec init curr s Hinit Hcurr Hcats r s1 Hrun)
        as [_ Hsucceeds].
      exists s1. by rewrite (Hsucceeds Hiterable).
    + intros s1 Hrun.
      by destruct (reducer_spec init curr s Hinit Hcurr Hcats _ s1 Hrun)
        as [Hok _]; apply Hok.
Qed.

(** The specification's example: with a mapping-typed category the later
    fragment overwrites the route. *)
Example merge_overwrites_mapping :
  let s1 := snd (getApplicationGuardedRoutes 0 [VObj 2; VObj 4] mappingState) in
  fst (getApplicationGuardedRoutes 0 [VObj 2; VObj 4] mappingState) = Ok (VObj 0) ∧
  get (ownProps s1 (get (objProps s1 0) "roles")) "/x" = VArr 1 ∧
  readRoute s1 (VObj 0) "roles" "/x" = [VStr "editor"].
Proof. vm_compute. done. Qed.

(** The specification's example: with a sequence-typed category the
    fragments' sequences are concatenated in the order of the fragments. *)
Example merge_concatenates_sequence :
  let s1 := snd (getApplicationGuardedRoutes 0 [VObj 1; VObj 2] sequenceState) in
  fst (getApplicationGuardedRoutes 0 [VObj 1; VObj 2] sequenceState) = Ok (VObj 0) ∧
  iterate s1 (get (objProps s1 0) "roles") = Some [VStr "admin"; VStr "editor"].
Proof. vm_compute. done. Qed.

Lemma merge_semantics_witness :
  getApplicationGuardedRoutes 0 [] mappingState
    = (Ok (VObj 0), set_merged (VObj 0) mappingState) ∧
  (∃ s1, reducer 0 (VObj 2) mappingState = (Ok 0, s1)) ∧
  keyMerged 0 mappingState (VObj 2) (snd (reducer 0 (VObj 2) mappingState)) "roles".
Proof.
  assert (Hlen : length (objs mappingState) = 6) by reflexivity.
  assert (Hinit : objProps mappingState 0 = {[ "roles" := VObj 1 ]})
    by reflexivity.
  assert (Hfrag : ownProps mappingState (VObj 2) = {[ "roles" := VObj 3 ]})
    by reflexivity.
  destruct (merge_semantics 0 mappingState) as [Hfold Hstep]; [lia|].
  destruct (Hfold eq_refl) as [Hnil _].
  destruct (Hstep (VObj 2)) as [Hsucceeds Heffect].
  - cbn. lia.
  - intros key. rewrite Hinit, Hfrag. unfold get.
    destruct (decide (key = "roles")) as [->|Hne].
    + rewrite !lookup_singleton_eq. cbn. lia.
    + rewrite !lookup_singleton_ne by done. done.
  - split; [done|]. split.
    + apply Hsucceeds. intros key _. rewrite Hinit. unfold get.
      destruct (decide (key = "roles")) as [->|Hne].
      * by rewrite lookup_singleton_eq.
      * by rewrite lookup_singleton_ne.
    + assert (Hrun : reducer 0 (VObj 2) mappingState
                     = (Ok 0, snd (reducer 0 (VObj 2) mappingState)))
        by (by_outcome).
      pose proof (Heffect _ Hrun "roles") as Hroles.
      rewrite decide_True in Hroles; [done|].
      rewrite Hfrag, lookup_singleton_eq. by eexists.
Defined.

(** ** The composed decision of the guide *)

Lemma keepsCalls_ret {A} (a : A) : keepsCalls (mret a : M A).
Proof. by intros s r s' [= <- <-]. Qed.

Lemma keepsCalls_throw {A} (e : exn) : keepsCalls (throw e : M A).
Proof. by intros s r s' [= <- <-]. Qed.

Lemma keepsCalls_gets {A} (f : State → A) : keepsCalls (gets f).
Proof. by intros s r s' [= <- <-]. Qed.

Lemma keepsCalls_bind {A B} (m : M A) (f : A → M B) :
  keepsCalls m → (∀ a, keepsCalls (f a)) → keepsCalls (m ≫= f).
Proof.
  intros Hm Hf s r s'. rewrite run_bind.
  destruct (m s) as [[a|e] s1] eqn:Hrun.
  - intros Hrest. rewrite (Hf _ _ _ _ Hrest). by eapply Hm.
  - intros [= <- <-]. by eapply Hm.
Qed.

Lemma keepsCalls_mergeKey (acc : nat) (curr : val) (key : string) :
  keepsCalls (mergeKey acc curr key).
Proof.
  intros s r s'. rewrite mergeKey_run. cbn zeta.
  destruct (isArray _); [destruct (iterate _ _)|destruct (truthy _)];
    by intros [= <- <-].
Qed.

Lemma keepsCalls_forEachM {A} (f : A → M unit) (l : list A) :
  (∀ x, keepsCalls (f x)) → keepsCalls (forEachM f l).
Proof.
  intros Hf. induction l as [|x xs IH]; [apply keepsCalls_ret|].
  cbn [forEachM]. apply keepsCalls_bind; [apply Hf|by intros _].
Qed.

Lemma keepsCalls_reduceM (fragments : list val) (acc : nat) :
  keepsCalls (reduceM reducer fragments acc).
Proof.
  revert acc. induction fragments as [|curr rest IH]; intros acc;
    [apply keepsCalls_ret|].
  cbn [reduceM]. apply keepsCalls_bind; [|done].
  unfold reducer. apply keepsCalls_bind; [apply keepsCalls_gets|intros keys].
  apply keepsCalls_bind; [|intros; apply keepsCalls_ret].
  apply keepsCalls_forEachM. intros key. apply keepsCalls_mergeKey.
Qed.

Lemma keepsCalls_accessor (init : nat) (fragments : list val) :
  keepsCalls (getApplicationGuardedRoutes init fragments).
Proof.
  unfold getApplicationGuardedRoutes.
  apply keepsCalls_bind; [apply keepsCalls_gets|intros cached].
  destruct (truthy cached); [apply keepsCalls_ret|].
  apply keepsCalls_bind; [apply keepsCalls_reduceM|intros merged].
  apply keepsCalls_bind; [|intros; apply keepsCalls_gets].
  by intros s r s' [= <- <-].
Qed.

Lemma keepsCalls_callBuiltin (name : string) : keepsCalls (callBuiltin name).
Proof.
  unfold callBuiltin.
  repeat case_decide; first [apply keepsCalls_ret|apply keepsCalls_throw].
Qed.

Section GuideCalls.
Context (getFlags : val → M bool) (callFunction : nat → M bool).
Context (accessor : M val).
Hypothesis accessor_keeps : keepsCalls accessor.
Hypothesis getFlags_keeps : ∀ flags, keepsCalls (getFlags flags).
Hypothesis callFunction_keeps : ∀ f, keepsCalls (callFunction f).

(** A predicate of the guide records its own entry and nothing else. *)
Lemma entered_then (name : string) (rest : M bool) (s : State)
    (r : result bool) (s' : State) :
  keepsCalls rest →
  (modify (record_call name) ≫= λ _, rest) s = (r, s') →
  calls s' = calls s ++ [name].
Proof. intros Hrest Hrun. apply Hrest in Hrun. by rewrite Hrun. Qed.

Lemma keepsCalls_lookup (category path : string) (k : val → M bool) :
  (∀ v, keepsCalls (k v)) →
  keepsCalls (config ← accessor;
              routes ← getProp config category;
              found ← Guide.searchMapForRouteOf path routes;
              k found).
Proof.
  intros Hk. apply keepsCalls_bind; [done|intros config].
  apply keepsCalls_bind; [|intros routes].
  { destruct config; first [apply keepsCalls_throw|apply keepsCalls_gets]. }
  apply keepsCalls_bind; [|done].
  destruct routes; first [apply keepsCalls_throw|apply keepsCalls_gets].
Qed.

Lemma checkRouteForRole_calls (path : string) (s : State) (r : result bool)
    (s' : State) :
  Guide.checkRouteForRole accessor path s = (r, s') →
  calls s' = calls s ++ ["checkRouteForRole"].
Proof.
  apply entered_then, keepsCalls_lookup. intros roles.
  destruct (negb (truthy roles)); [apply keepsCalls_ret|].
  apply keepsCalls_bind; [|intros; apply keepsCalls_ret].
  destruct roles;
    first [apply keepsCalls_throw|apply keepsCalls_gets|apply keepsCalls_ret].
Qed.

Lemma checkRouteForFeatureFlag_calls (path : string) (s : State)
    (r : result bool) (s' : State) :
  Guide.checkRouteForFeatureFlag getFlags accessor path s = (r, s') →
  calls s' = calls s ++ ["checkRouteForFeatureFlag"].
Proof.
  apply entered_then, keepsCalls_lookup. intros flags.
  destruct (negb (truthy flags)); [apply keepsCalls_ret|done].
Qed.

Lemma checkRouteForSpecialChecks_calls (path : string) (s : State)
    (r : result bool) (s' : State) :
  Guide.checkRouteForSpecialChecks callFunction accessor path s = (r, s') →
  calls s' = calls s ++ ["checkRouteForSpecialChecks"].
Proof.
  apply entered_then, keepsCalls_lookup. intros check.
  destruct (negb (truthy check)); [apply keepsCalls_ret|].
  destruct check;
    first [apply keepsCalls_throw|apply callFunction_keeps
          |apply keepsCalls_callBuiltin].
Qed.

End GuideCalls.

(** C7: short-circuit conjunction.  The composed decision runs the role
    check, then the feature-flag check, then the special checks.  When the
    role check gives [false] the result is [false] and the state is the one
    the role check left: the two later predicates were not entered.  When it
    gives [true] and the flag check gives [false], the result is [false] and
    the special checks were not entered.  When both give [true], the result
    is that of the special checks: [true] when all three give [true].  With
    an accessor and a host that do not write the trace, the trace of entered
    predicates grows by exactly the predicates named, in that order. *)
Theorem short_circuit_conjunction (getFlags : val → M bool)
    (callFunction : nat → M bool) (accessor : M val) (path : string) (s : State) :
  let role := Guide.checkRouteForRole accessor path in
  let flag := Guide.checkRouteForFeatureFlag getFlags accessor path in
  let special := Guide.checkRouteForSpecialChecks callFunction accessor path in
  let allowed :=
    Guide.isPathAllowedWithGetApplicationGuardedRoutes getFlags callFunction
      accessor path in
  ((∀ s1, role s = (Ok false, s1) → allowed s = (Ok false, s1)) ∧
   (∀ s1 s2, role s = (Ok true, s1) → flag s1 = (Ok false, s2) →
             allowed s = (Ok false, s2)) ∧
   (∀ s1 s2 s3 b, role s = (Ok true, s1) → flag s1 = (Ok true, s2) →
             special s2 = (Ok b, s3) → allowed s = (Ok b, s3))) ∧
  (keepsCalls accessor → (∀ flags, keepsCalls (getFlags flags)) →
   (∀ f, keepsCalls (callFunction f)) →
   (∀ s1, role s = (Ok false, s1) →
          calls (snd (allowed s)) = calls s ++ ["checkRouteForRole"]) ∧
   (∀ s1 s2, role s = (Ok true, s1) → flag s1 = (Ok false, s2) →
          calls (snd (allowed s))
          = calls s ++ ["checkRouteForRole"; "checkRouteForFeatureFlag"]) ∧
   (∀ s1 s2 s3 b, role s = (Ok true, s1) → flag s1 = (Ok true, s2) →
          special s2 = (Ok b, s3) →
          calls (snd (allowed s))
          = calls s ++ ["checkRouteForRole"; "checkRouteForFeatureFlag";
                        "checkRouteForSpecialChecks"])).
Proof.
  intros role flag special allowed.
  assert (H1 : ∀ s1, role s = (Ok false, s1) → allowed s = (Ok false, s1)).
  { intros s1 Hrole. unfold allowed,
      Guide.isPathAllowedWithGetApplicationGuardedRoutes, Guide.andAwait.
    rewrite !run_bind. fold role. by rewrite Hrole. }
  assert (H2 : ∀ s1 s2, role s = (Ok true, s1) → flag s1 = (Ok false, s2) →
                        allowed s = (Ok false, s2)).
  { intros s1 s2 Hrole Hflag. unfold allowed,
      Guide.isPathAllowedWithGetApplicationGuardedRoutes, Guide.andAwait.
    rewrite !run_bind. fold role. rewrite Hrole. fold flag. by rewrite Hflag. }
  assert (H3 : ∀ s1 s2 s3 b, role s = (Ok true, s1) → flag s1 = (Ok true, s2) →
                        special s2 = (Ok b, s3) → allowed s = (Ok b, s3)).
  { intros s1 s2 s3 b Hrole Hflag Hspecial. unfold allowed,
      Guide.isPathAllowedWithGetApplicationGuardedRoutes, Guide.andAwait.
    rewrite !run_bind. fold role. rewrite Hrole. fold flag. rewrite Hflag.
    done. }
  split; [done|]. intros Hacc Hflags Hfuns. split; [|split].
  - intros s1 Hrole. rewrite (H1 _ Hrole). cbn [snd].
    by eapply checkRouteForRole_calls.
  - intros s1 s2 Hrole Hflag. rewrite (H2 _ _ Hrole Hflag). cbn [snd].
    rewrite (checkRouteForFeatureFlag_calls _ _ Hacc Hflags _ _ _ _ Hflag).
    rewrite (checkRouteForRole_calls _ Hacc _ _ _ _ Hrole).
    by rewrite <- app_assoc.
  - intros s1 s2 s3 b Hrole Hflag Hspecial.
    rewrite (H3 _ _ _ _ Hrole Hflag Hspecial). cbn [snd].
    rewrite (checkRouteForSpecialChecks_calls _ _ Hacc Hfuns _ _ _ _ Hspecial).
    rewrite (checkRouteForFeatureFlag_calls _ _ Hacc Hflags _ _ _ _ Hflag).
    rewrite (checkRouteForRole_calls _ Hacc _ _ _ _ Hrole).
    by rewrite <- !app_assoc.
Qed.

Lemma short_circuit_conjunction_witness :
  let accessor := getApplicationGuardedRoutes 0 [VObj 4] in
  let allowed :=
    Guide.isPathAllowedWithGetApplicationGuardedRoutes flagsOn checkFails accessor in
  fst (allowed "/admin-only-route" guideState) = Ok false ∧
  calls (snd (allowed "/admin-only-route" guideState)) = ["checkRouteForRole"] ∧
  fst (allowed "/beta-route" guideState) = Ok true ∧
  calls (snd (allowed "/beta-route" guideState))
  = ["checkRouteForRole"; "checkRouteForFeatureFlag"; "checkRouteForSpecialChecks"].
Proof.
  intros accessor allowed.
  destruct (short_circuit_conjunction flagsOn checkFails accessor
              "/admin-only-route" guideState) as [(Hdeny & _ & _) Htrace].
  destruct Htrace as (Hdeny_calls & _ & _).
  { apply keepsCalls_accessor. }
  { intros flags. apply keepsCalls_ret. }
  { intros f. apply keepsCalls_throw. }
  destruct (short_circuit_conjunction flagsOn checkFails accessor
              "/beta-route" guideState) as [(_ & _ & Hall) Htrace].
  destruct Htrace as (_ & _ & Hall_calls).
  { apply keepsCalls_accessor. }
  { intros flags. apply keepsCalls_ret. }
  { intros f. apply keepsCalls_throw. }
  assert (Hrole1 : Guide.checkRouteForRole accessor "/admin-only-route" guideState
                   = (Ok false, snd (Guide.checkRouteForRole accessor
                                       "/admin-only-route" guideState)))
    by (by_outcome).
  pose (s1 := snd (Guide.checkRouteForRole accessor "/beta-route" guideState)).
  pose (s2 := snd (Guide.checkRouteForFeatureFlag flagsOn accessor "/beta-route" s1)).
  pose (s3 := snd (Guide.checkRouteForSpecialChecks checkFails accessor
                     "/beta-route" s2)).
  assert (Hrole2 : Guide.checkRouteForRole accessor "/beta-route" guideState
                   = (Ok true, s1))
    by (by_outcome).
  assert (Hflag2 : Guide.checkRouteForFeatureFlag flagsOn accessor "/beta-route" s1
                   = (Ok true, s2))
    by (by_outcome).
  assert (Hspecial2 : Guide.checkRouteForSpecialChecks checkFails accessor
                        "/beta-route" s2
                      = (Ok true, s3))
    by (by_outcome).
  split; [|split; [|split]].
  - unfold allowed. by rewrite (Hdeny _ Hrole1).
  - unfold allowed. by rewrite (Hdeny_calls _ Hrole1).
  - unfold allowed. by rewrite (Hall _ _ _ _ Hrole2 Hflag2 Hspecial2).
  - unfold allowed. by rewrite (Hall_calls _ _ _ _ Hrole2 Hflag2 Hspecial2).
Defined.

(** C8 (as amended): [isPathAllowed] has no handler of its own.  Its outcome
    is that of the caller-supplied composed function applied to the
    accessor, so a failure of a predicate reaches the direct caller of
    [isPathAllowed]: with the guide's predicates, a throw of the role check,
    of the flag check after a passing role check, or of the special checks
    after two passing checks is the outcome of [isPathAllowed].  The failure
    is contained by [guardMiddleware] only, which logs it and answers with
    the rejection handler. *)
Theorem isPathAllowed_propagates (getFlags : val → M bool)
    (callFunction : nat → M bool) (init : nat) (fragments : list val)
    (reject : M val → NextUrl → M val) (request : NextRequest) (s : State) :
  let params := guideParams getFlags callFunction init fragments reject in
  let api := generateGuardedRoutes params in
  let accessor := getApplicationGuardedRoutes init fragments in
  let path := pathname (nextUrl request) in
  let role := Guide.checkRouteForRole accessor path in
  let flag := Guide.checkRouteForFeatureFlag getFlags accessor path in
  let special := Guide.checkRouteForSpecialChecks callFunction accessor path in
  (∀ e s1, role s = (Throw e, s1) → isPathAllowed api path s = (Throw e, s1)) ∧
  (∀ e s1 s2, role s = (Ok true, s1) → flag s1 = (Throw e, s2) →
              isPathAllowed api path s = (Throw e, s2)) ∧
  (∀ e s1 s2 s3, role s = (Ok true, s1) → flag s1 = (Ok true, s2) →
              special s2 = (Throw e, s3) →
              isPathAllowed api path s = (Throw e, s3)) ∧
  (∀ e s1 response, isPathAllowed api path s = (Throw e, s1) →
              guardMiddleware api request response s
              = reject accessor (nextUrl request) (console_error e s1)).
Proof.
  intros params api accessor path role flag special.
  split; [|split; [|split]].
  - intros e s1 Hrole.
    cbn [api generateGuardedRoutes isPathAllowed params guideParams
         isPathAllowedWithGetApplicationGuardedRoutes initValue
         applicationGuardedRoutes].
    unfold Guide.isPathAllowedWithGetApplicationGuardedRoutes, Guide.andAwait.
    rewrite !run_bind. fold accessor role. by rewrite Hrole.
  - intros e s1 s2 Hrole Hflag.
    cbn [api generateGuardedRoutes isPathAllowed params guideParams
         isPathAllowedWithGetApplicationGuardedRoutes initValue
         applicationGuardedRoutes].
    unfold Guide.isPathAllowedWithGetApplicationGuardedRoutes, Guide.andAwait.
    rewrite !run_bind. fold accessor role. rewrite Hrole.
    fold flag. by rewrite Hflag.
  - intros e s1 s2 s3 Hrole Hflag Hspecial.
    cbn [api generateGuardedRoutes isPathAllowed params guideParams
         isPathAllowedWithGetApplicationGuardedRoutes initValue
         applicationGuardedRoutes].
    unfold Guide.isPathAllowedWithGetApplicationGuardedRoutes, Guide.andAwait.
    rewrite !run_bind. fold accessor role. rewrite Hrole.
    fold flag. rewrite Hflag. done.
  - intros e s1 response Hthrow. subst api.
    rewrite guardMiddleware_run. cbn zeta. fold path. by rewrite Hthrow.
Qed.

Lemma isPathAllowed_propagates_witness :
  fst (isPathAllowed (generateGuardedRoutes failingGuide) "/special-route" guideState)
    = Throw (Raised (VStr "check failed")) ∧
  fst (guardMiddleware (generateGuardedRoutes failingGuide)
         (requestFor "/special-route") (VStr "next") guideState) = Ok (VNum 404).
Proof.
  destruct (isPathAllowed_propagates flagsOn checkFails 0 [VObj 4]
              (rejectWith (VNum 404)) (requestFor "/special-route") guideState)
    as (_ & _ & Hspecial & Hmiddleware).
  split.
  - change (isPathAllowed (generateGuardedRoutes failingGuide) "/special-route")
      with (isPathAllowed
              (generateGuardedRoutes
                 (guideParams flagsOn checkFails 0 [VObj 4] (rejectWith (VNum 404))))
              (pathname (nextUrl (requestFor "/special-route")))).
    pose (accessor := getApplicationGuardedRoutes 0 [VObj 4]).
    pose (s1 := snd (Guide.checkRouteForRole accessor "/special-route" guideState)).
    pose (s2 := snd (Guide.checkRouteForFeatureFlag flagsOn accessor
                       "/special-route" s1)).
    pose (s3 := snd (Guide.checkRouteForSpecialChecks checkFails accessor
                       "/special-route" s2)).
    rewrite (Hspecial (Raised (VStr "check failed")) s1 s2 s3);
      [reflexivity|by_outcome..].
  - change failingGuide
      with (guideParams flagsOn checkFails 0 [VObj 4] (rejectWith (VNum 404))).
    rewrite (Hmiddleware (Raised (VStr "check failed"))
               (snd (isPathAllowed
                       (generateGuardedRoutes
                          (guideParams flagsOn checkFails 0 [VObj 4]
                             (rejectWith (VNum 404))))
                       "/special-route" guideState)));
      [reflexivity|by_outcome].
Defined.

(** C8 (as stated) fails: with the guide's example configuration and a
    custom check that throws, [isPathAllowed("/special-route")] rejects with
    the failure of the check; its direct caller observes it. *)
Lemma isPathAllowed_throws_counterexample :
  fst (isPathAllowed (generateGuardedRoutes failingGuide) "/special-route" guideState)
    = Throw (Raised (VStr "check failed")) ∧
  (∀ b : bool,
     fst (isPathAllowed (generateGuardedRoutes failingGuide) "/special-route"
            guideState) ≠ Ok b).
Proof.
  split; [vm_compute; reflexivity|]. intros b. vm_compute. intros [=].
Qed.

(** C9: the end-to-end scenario.  With the single fragment
    [{roleBasedRoutes: {"/admin/*": ["admin"]}}], an initial value whose
    categories are empty, and the guide's predicates, [isPathAllowed] gives
    [false] for [/admin/panel] and [true] for [/public], whatever the host's
    flag service and custom checks are, on the first access of the
    configuration and after it. *)
Theorem end_to_end_scenario (getFlags : val → M bool) (callFunction : nat → M bool) :
  let api := generateGuardedRoutes (adminGuide getFlags callFunction) in
  fst (isPathAllowed api "/admin/panel" adminState) = Ok false ∧
  fst (isPathAllowed api "/public" adminState) = Ok true ∧
  fst (isPathAllowed api "/public" (snd (isPathAllowed api "/admin/panel" adminState)))
    = Ok true ∧
  fst (isPathAllowed api "/admin/panel" (snd (isPathAllowed api "/public" adminState)))
    = Ok false.
Proof. intros api. repeat split; vm_compute; reflexivity. Qed.

(** * Further properties of the route pattern matcher *)

(** ** Splitting and joining *)

Lemma append_assoc (a b c : string) : (a +:+ b) +:+ c = a +:+ (b +:+ c).
Proof.
  induction a as [|x a IH]; [done|].
  change (String x ((a +:+ b) +:+ c) = String x (a +:+ b +:+ c)).
  by rewrite IH.
Qed.

Lemma split_nonempty (sep : ascii) (s : string) : split sep s ≠ [].
Proof.
  destruct s as [|c rest]; cbn; [done|].
  destruct (Ascii.eqb c sep); [done|]. by destruct (split sep rest).
Qed.

Lemma split_length (sep : ascii) (s : string) : 1 ≤ length (split sep s).
Proof.
  pose proof (split_nonempty sep s). destruct (split sep s); cbn; [done|lia].
Qed.

Lemma join_cons (sep p : string) (ps : list string) :
  ps ≠ [] → join sep (p :: ps) = p +:+ sep +:+ join sep ps.
Proof. by destruct ps. Qed.

(** Joining the parts of a path with the separator gives the path back. *)
Lemma join_split (s : string) : join "/" (split "/" s) = s.
Proof.
  induction s as [|c rest IH]; [done|]. cbn [split].
  destruct (Ascii.eqb c "/") eqn:Hc.
  - apply Ascii.eqb_eq in Hc as ->.
    rewrite join_cons by apply split_nonempty. by rewrite IH.
  - pose proof (split_nonempty "/" rest) as Hne.
    destruct (split "/" rest) as [|p ps]; [done|].
    rewrite <- IH. by destruct ps.
Qed.

Lemma split_app (prefix rest : string) :
  split "/" (prefix +:+ "/" +:+ rest) = split "/" prefix ++ split "/" rest.
Proof.
  induction prefix as [|c prefix IH]; [done|].
  change (String c prefix +:+ "/" +:+ rest)
    with (String c (prefix +:+ "/" +:+ rest)).
  cbn [split]. rewrite IH. destruct (Ascii.eqb c "/"); [done|].
  pose proof (split_nonempty "/" prefix) as Hne.
  by destruct (split "/" prefix).
Qed.

Lemma join_app (sep : string) (l1 l2 : list string) :
  l1 ≠ [] → l2 ≠ [] →
  join sep (l1 ++ l2) = join sep l1 +:+ sep +:+ join sep l2.
Proof.
  intros Hl1 Hl2. induction l1 as [|p l1 IH]; [done|].
  destruct l1 as [|q l1].
  - cbn [app]. by rewrite join_cons.
  - change ((p :: q :: l1) ++ l2) with (p :: (q :: l1) ++ l2).
    rewrite join_cons by done. rewrite IH by done.
    rewrite (join_cons sep p (q :: l1)) by done.
    by rewrite !append_assoc.
Qed.

(** The last key of the loop's first round is the path itself followed by
    the wildcard marker. *)
Lemma wildcardKey_full (pathname : string) :
  wildcardKey (split "/" pathname) (length (split "/" pathname))
  = pathname +:+ "/*".
Proof. unfold wildcardKey. by rewrite firstn_all, join_split. Qed.

(** The key tested with [i] parts, in terms of the path. *)
Lemma wildcardKey_prefix (pathname : string) (i : nat) :
  1 ≤ i ≤ length (split "/" pathname) →
  ∃ prefix, wildcardKey (split "/" pathname) i = prefix +:+ "/*" ∧
            (pathname = prefix ∨ ∃ rest, pathname = prefix +:+ "/" +:+ rest).
Proof.
  intros Hi. exists (join "/" (take i (split "/" pathname))). split; [done|].
  destruct (decide (i = length (split "/" pathname))) as [->|Hlt].
  - left. by rewrite firstn_all, join_split.
  - right. exists (join "/" (drop i (split "/" pathname))).
    rewrite <- join_app.
    + by rewrite take_drop, join_split.
    + intros Hnil. apply (f_equal length) in Hnil.
      rewrite length_take in Hnil. cbn in Hnil. lia.
    + intros Hnil. apply (f_equal length) in Hnil.
      rewrite length_drop in Hnil. cbn in Hnil. lia.
Qed.

Lemma matchesWildcard_self (pathname : string) :
  matchesWildcard (pathname +:+ "/*") pathname.
Proof.
  apply elem_of_wildcardKeys. exists (length (split "/" pathname)).
  split; [|by rewrite wildcardKey_full].
  pose proof (split_length "/" pathname). lia.
Qed.

Lemma matchesWildcard_beneath (prefix rest : string) :
  matchesWildcard (prefix +:+ "/*") (prefix +:+ "/" +:+ rest).
Proof.
  apply elem_of_wildcardKeys. exists (length (split "/" prefix)).
  rewrite split_app. split.
  - pose proof (split_length "/" prefix). rewrite length_app. lia.
  - unfold wildcardKey. by rewrite take_app_length, join_split.
Qed.

(** X1: a path is covered by its own wildcard, first.  When reading the
    table at the path itself gives no truthy value, neither from an entry nor
    from what the table inherits, and the table stores a truthy value under
    [pathname + "/*"], that value is the result, whatever shorter wildcard
    patterns the table has. *)
Theorem own_wildcard_first (pathname : string) (routes : gmap string val) :
  truthy (read routes pathname) = false →
  truthy (get routes (pathname +:+ "/*")) = true →
  searchMapForRoute pathname routes = get routes (pathname +:+ "/*").
Proof.
  intros Hexact Hown. rewrite <- wildcardKey_full.
  apply searchMapForRoute_wildcard; [done| | |].
  - pose proof (split_length "/" pathname). lia.
  - by rewrite wildcardKey_full.
  - intros j Hj. lia.
Qed.

Lemma own_wildcard_first_witness :
  searchMapForRoute "/a/b" {[ "/a/*" := VNum 1; "/a/b/*" := VNum 2 ]} = VNum 2.
Proof.
  change (VNum 2)
    with (get ({[ "/a/*" := VNum 1; "/a/b/*" := VNum 2 ]} : gmap string val)
              ("/a/b" +:+ "/*")).
  apply (own_wildcard_first "/a/b"); vm_compute; reflexivity.
Defined.

(** X2: what a wildcard pattern matches.  The patterns tested for a path are
    exactly the strings [prefix + "/*"] for which the path is [prefix] itself
    or [prefix + "/" + rest]: a pattern covers its prefix and everything
    beneath it, and only at a segment boundary. *)
Theorem matchesWildcard_iff (pattern pathname : string) :
  matchesWildcard pattern pathname ↔
  ∃ prefix, pattern = prefix +:+ "/*" ∧
            (pathname = prefix ∨ ∃ rest, pathname = prefix +:+ "/" +:+ rest).
Proof.
  split.
  - intros (i & Hi & ->)%elem_of_wildcardKeys. by apply wildcardKey_prefix.
  - intros (prefix & -> & [->|[rest ->]]).
    + apply matchesWildcard_self.
    + apply matchesWildcard_beneath.
Qed.

(** ** The order of the tests *)

Lemma searchWildcard_head (pathParts : list string) (routes : gmap string val)
    (n : nat) :
  searchWildcard pathParts routes n
  = default VUndef
      (head (filter (λ v, truthy v = true)
               (read routes <$> (wildcardKey pathParts <$> reverse (seq 1 n))))).
Proof.
  induction n as [|n IH]; [done|].
  rewrite seq_S, reverse_snoc, !fmap_cons, filter_cons. cbn [searchWildcard].
  change (1 + n) with (S n).
  destruct (truthy (read routes (wildcardKey pathParts (S n)))) eqn:Htruthy.
  - by rewrite decide_True.
  - by rewrite decide_False.
Qed.

(** X3: the order of precedence.  The lookup returns the first truthy value
    among those the table gives, own or inherited, when read at the path
    itself and then at the wildcard patterns of the path from the longest to
    the shortest, and [undefined] when there is none. *)
Theorem lookup_priority_order (pathname : string) (routes : gmap string val) :
  searchMapForRoute pathname routes
  = default VUndef
      (head (filter (λ v, truthy v = true)
               (read routes <$> pathname :: wildcardKeys pathname))).
Proof.
  unfold searchMapForRoute, wildcardKeys. rewrite fmap_cons, filter_cons.
  destruct (truthy (read routes pathname)) eqn:Hexact.
  - by rewrite decide_True.
  - rewrite decide_False by done. apply searchWildcard_head.
Qed.

Lemma get_Some (routes : gmap string val) (key : string) (v : val) :
  get routes key = v → v ≠ VUndef → routes !! key = Some v.
Proof. unfold get. destruct (routes !! key); cbn; congruence. Qed.

(** X4: the lookup invents nothing.  A result other than [undefined] is
    truthy, and it is the value the table stores under the path itself or
    under a wildcard pattern that matches the path, or else the table has no
    entry for the path and the result is what every object inherits under
    that name. *)
Theorem lookup_result_is_stored (pathname : string) (routes : gmap string val)
    (v : val) :
  searchMapForRoute pathname routes = v →
  v ≠ VUndef →
  truthy v = true ∧
  ((∃ key, (key = pathname ∨ matchesWildcard key pathname) ∧
           routes !! key = Some v) ∨
   (routes !! pathname = None ∧ objectPrototype !! pathname = Some v)).
Proof.
  unfold searchMapForRoute.
  destruct (truthy (read routes pathname)) eqn:Hexact; intros Hv Hdef.
  - subst v. split; [done|]. unfold read in *.
    destruct (routes !! pathname) as [v|] eqn:Hown.
    + left. exists pathname. split; [by left|done].
    + right. split; [done|]. by apply get_Some.
  - destruct (searchWildcard_found _ _ _ _ Hv Hdef) as (i & Hi & Hget & Htruthy).
    split; [done|]. left. exists (wildcardKey (split "/" pathname) i). split.
    + right. apply elem_of_wildcardKeys. by exists i.
    + by apply get_Some.
Qed.

Lemma lookup_result_is_stored_witness :
  truthy (VNum 2) = true ∧
  ((∃ key, (key = "/a/b/c" ∨ matchesWildcard key "/a/b/c") ∧
           nestedTable !! key = Some (VNum 2)) ∨
   (nestedTable !! "/a/b/c" = None ∧
    objectPrototype !! "/a/b/c" = Some (VNum 2))).
Proof.
  apply (lookup_result_is_stored "/a/b/c" nestedTable (VNum 2));
    [vm_compute; reflexivity|discriminate].
Defined.

Lemma searchWildcard_undefined (pathParts : list string)
    (routes : gmap string val) (n : nat) :
  searchWildcard pathParts routes n = VUndef →
  ∀ j, 1 ≤ j ≤ n → truthy (get routes (wildcardKey pathParts j)) = false.
Proof.
  induction n as [|n IH]; cbn [searchWildcard]; intros Hundef j Hj; [lia|].
  rewrite read_wildcardKey in Hundef.
  destruct (truthy (get routes (wildcardKey pathParts (S n)))) eqn:Htruthy.
  - rewrite Hundef in Htruthy. discriminate.
  - destruct (decide (j = S n)) as [->|Hne]; [done|]. apply IH; [done|lia].
Qed.

(** X5: when the lookup is [undefined].  The result is [undefined] exactly
    when reading the table at the path itself gives no truthy value, neither
    from an entry nor from what the table inherits, and the table stores no
    truthy value under any wildcard pattern that matches the path. *)
Theorem lookup_undefined_iff (pathname : string) (routes : gmap string val) :
  searchMapForRoute pathname routes = VUndef ↔
  truthy (read routes pathname) = false ∧
  ∀ pattern, matchesWildcard pattern pathname →
             truthy (get routes pattern) = false.
Proof.
  unfold searchMapForRoute. split.
  - destruct (truthy (read routes pathname)) eqn:Hexact.
    + intros Hundef. rewrite Hundef in Hexact. discriminate.
    + intros Hundef. split; [done|].
      intros pattern (i & Hi & ->)%elem_of_wildcardKeys.
      by eapply searchWildcard_undefined.
  - intros [-> Hnone]. apply searchWildcard_none. intros j Hj.
    apply Hnone, elem_of_wildcardKeys. by exists j.
Qed.

(** ** What a lookup depends on *)

Lemma searchWildcard_ext (pathParts : list string)
    (routes routes' : gmap string val) (n : nat) :
  (∀ j, 1 ≤ j ≤ n →
     read routes (wildcardKey pathParts j) = read routes' (wildcardKey pathParts j) ∨
     (truthy (read routes (wildcardKey pathParts j)) = false ∧
      truthy (read routes' (wildcardKey pathParts j)) = false)) →
  searchWildcard pathParts routes n = searchWildcard pathParts routes' n.
Proof.
  induction n as [|n IH]; intros Hsame; [done|]. cbn [searchWildcard].
  rewrite IH by (intros j Hj; apply Hsame; lia).
  destruct (Hsame (S n)) as [->|[-> ->]]; [lia|done..].
Qed.

(** Two tables give the same result for a path when, at the exact key and at
    each tested pattern, they read as the same value or both read as a falsy
    one. *)
Lemma searchMapForRoute_ext (pathname : string) (routes routes' : gmap string val) :
  (∀ key, key = pathname ∨ matchesWildcard key pathname →
     read routes key = read routes' key ∨
     (truthy (read routes key) = false ∧ truthy (read routes' key) = false)) →
  searchMapForRoute pathname routes = searchMapForRoute pathname routes'.
Proof.
  intros Hsame. unfold searchMapForRoute.
  rewrite (searchWildcard_ext _ routes routes').
  - destruct (Hsame pathname) as [->|[-> ->]]; [by left|done..].
  - intros j Hj. apply Hsame. right. apply elem_of_wildcardKeys. by exists j.
Qed.

(** X6: routes that do not concern a path do not affect it.  Adding,
    replacing or removing an entry whose key is neither the path nor a
    wildcard pattern that matches the path leaves the lookup of the path as
    it was. *)
Theorem lookup_ignores_other_keys (pathname key : string) (v : val)
    (routes : gmap string val) :
  key ≠ pathname →
  ¬ matchesWildcard key pathname →
  searchMapForRoute pathname (<[key := v]> routes)
    = searchMapForRoute pathname routes ∧
  searchMapForRoute pathname (delete key routes)
    = searchMapForRoute pathname routes.
Proof.
  intros Hne Hnot. split; apply searchMapForRoute_ext; intros k Hk; left;
    unfold read.
  - rewrite lookup_insert_ne; [done|]. intros <-. by destruct Hk.
  - rewrite lookup_delete_ne; [done|]. intros <-. by destruct Hk.
Qed.

Lemma lookup_ignores_other_keys_witness :
  searchMapForRoute "/a/b" (<["/ab/*" := VNum 9]> nestedTable)
    = searchMapForRoute "/a/b" nestedTable ∧
  searchMapForRoute "/a/b" (delete "/ab/*" nestedTable)
    = searchMapForRoute "/a/b" nestedTable.
Proof.
  apply (lookup_ignores_other_keys "/a/b" "/ab/*" (VNum 9) nestedTable).
  - discriminate.
  - unfold matchesWildcard. compute_done.
Defined.

(** X7: a falsy entry is as good as none.  Under a key that is not the name
    of an inherited property, storing a falsy value gives, for every path,
    the same lookups as removing the key. *)
Theorem falsy_entry_is_absent (pathname key : string) (v : val)
    (routes : gmap string val) :
  objectPrototype !! key = None →
  truthy v = false →
  searchMapForRoute pathname (<[key := v]> routes)
  = searchMapForRoute pathname (delete key routes).
Proof.
  intros Hproto Hfalsy. apply searchMapForRoute_ext. intros k _. unfold read.
  destruct (decide (key = k)) as [<-|Hne].
  - right. rewrite lookup_insert_eq, lookup_delete_eq.
    by rewrite (get_None _ _ Hproto).
  - left. by rewrite lookup_insert_ne, lookup_delete_ne.
Qed.

Lemma falsy_entry_is_absent_witness :
  searchMapForRoute "/a/b/c" (<["/a/b/*" := VNum 0]> nestedTable)
  = searchMapForRoute "/a/b/c" (delete "/a/b/*" nestedTable).
Proof.
  apply (falsy_entry_is_absent "/a/b/c" "/a/b/*" (VNum 0));
    vm_compute; reflexivity.
Defined.

(** * Further properties of the registry merger *)

(** ** The kind of a category *)

Lemma mergeKey_isArray (acc : nat) (curr : val) (key key' : string) (s : State)
    (r : result unit) (s' : State) :
  acc < length (objs s) →
  mergeKey acc curr key s = (r, s') →
  isArray (get (objProps s' acc) key') = isArray (get (objProps s acc) key').
Proof.
  intros Hacc Hrun. destruct (decide (key = key')) as [<-|Hne];
    [|by rewrite (mergeKey_other _ _ _ _ _ _ _ Hacc Hne Hrun)].
  revert Hrun. rewrite mergeKey_run. cbn zeta.
  destruct (isArray (get (objProps s acc) key)) eqn:Harr.
  - destruct (iterate s (get (ownProps s curr) key)) as [currElems|];
      intros [= <- <-]; [|done].
    rewrite objProps_insert by done. rewrite decide_True by done.
    rewrite get_insert. by rewrite decide_True.
  - destruct (truthy (get (ownProps s curr) key)); intros [= <- <-]; [|done].
    rewrite objProps_insert by (cbn; rewrite length_app; lia).
    rewrite decide_True by done. rewrite get_insert. by rewrite decide_True.
Qed.

Lemma forEachM_mergeKey_isArray (acc : nat) (curr : val) (keys : list string)
    (key' : string) (s : State) (r : result unit) (s' : State) :
  acc < length (objs s) →
  forEachM (mergeKey acc curr) keys s = (r, s') →
  isArray (get (objProps s' acc) key') = isArray (get (objProps s acc) key').
Proof.
  revert s. induction keys as [|key keys IH]; intros s Hacc.
  - by intros [= <- <-].
  - rewrite run_forEachM_cons.
    destruct (mergeKey acc curr key s) as [[[]|e] s1] eqn:Hkey.
    + intros Hrest. rewrite <- (mergeKey_isArray _ _ _ key' _ _ _ Hacc Hkey).
      eapply IH; [|exact Hrest].
      pose proof (frame_length _ _ _
                    (ext_frame _ _ _ (mergeKey_extends _ _ _ _ _ _ Hacc Hkey))).
      lia.
    + intros [= <- <-]. by eapply mergeKey_isArray.
Qed.

Lemma reduceM_reducer_isArray (init : nat) (fragments : list val) (key : string)
    (s : State) (r : result nat) (s' : State) :
  init < length (objs s) →
  reduceM reducer fragments init s = (r, s') →
  isArray (get (objProps s' init) key) = isArray (get (objProps s init) key).
Proof.
  revert s. induction fragments as [|curr rest IH]; intros s Hinit.
  - by intros [= <- <-].
  - cbn [reduceM]. rewrite run_bind.
    destruct (reducer init curr s) as [[acc'|e] s1] eqn:Hcurr.
    + destruct (reducer_extends _ _ _ _ _ Hinit Hcurr) as [E1 [[= ->]|[? [=]]]].
      intros Hrest. rewrite (IH s1) with (2 := Hrest).
      * revert Hcurr. unfold reducer, mbind, M_bind, gets, mret, M_ret.
        destruct (forEachM (mergeKey init curr) _ s) as [[[]|e] s2] eqn:Hloop;
          intros [= <-]. by eapply forEachM_mergeKey_isArray.
      * pose proof (frame_length _ _ _ (ext_frame _ _ _ E1)). lia.
    + intros [= <- <-]. revert Hcurr.
      unfold reducer, mbind, M_bind, gets, mret, M_ret.
      destruct (forEachM (mergeKey init curr) _ s) as [[[]|e'] s2] eqn:Hloop;
        intros [= <- <-]. by eapply forEachM_mergeKey_isArray.
Qed.

(** X8: the kind of a category is fixed by the initial value.  Whatever the
    fragments hold and whether the call returns or throws, a category is an
    array after a call of the accessor exactly when it was one before: a
    category that is missing from the initial value, or is a mapping there,
    never becomes an array, even when every fragment supplies one. *)
Theorem category_kind_is_fixed (init : nat) (fragments : list val) (s : State)
    (r : result val) (s' : State) (key : string) :
  init < length (objs s) →
  getApplicationGuardedRoutes init fragments s = (r, s') →
  isArray (get (objProps s' init) key) = isArray (get (objProps s init) key).
Proof.
  intros Hinit.
  destruct (truthy (mergedApplicationGuardedRoutes s)) eqn:Hcached.
  - rewrite accessor_cached by done. by intros [= <- <-].
  - rewrite accessor_uncached by done.
    destruct (reduceM reducer fragments init s) as [[merged|e] s1] eqn:Hred;
      intros [= <- <-];
      by rewrite <- (reduceM_reducer_isArray _ _ key _ _ _ Hinit Hred).
Qed.

Lemma category_kind_is_fixed_witness :
  let s1 := snd (getApplicationGuardedRoutes 0 [VObj 1; VObj 2] sequenceState) in
  isArray (get (objProps s1 0) "roles") = true ∧
  isArray (get (objProps s1 0) "flags") = false.
Proof.
  intros s1. split.
  - rewrite (category_kind_is_fixed 0 [VObj 1; VObj 2] sequenceState
               (fst (getApplicationGuardedRoutes 0 [VObj 1; VObj 2] sequenceState))
               s1 "roles"); [reflexivity|cbn; lia|apply surjective_pairing].
  - rewrite (category_kind_is_fixed 0 [VObj 1; VObj 2] sequenceState
               (fst (getApplicationGuardedRoutes 0 [VObj 1; VObj 2] sequenceState))
               s1 "flags"); [reflexivity|cbn; lia|apply surjective_pairing].
Defined.

(** ** What the accessor can throw *)

Lemma mergeKey_throws (acc : nat) (curr : val) (key : string) (s : State)
    (e : exn) (s' : State) :
  mergeKey acc curr key s = (Throw e, s') → e = notIterable.
Proof.
  rewrite mergeKey_run. cbn zeta.
  destruct (isArray _); [destruct (iterate _ _)|destruct (truthy _)];
    by intros [= <- <-].
Qed.

Lemma forEachM_mergeKey_throws (acc : nat) (curr : val) (keys : list string)
    (s : State) (e : exn) (s' : State) :
  forEachM (mergeKey acc curr) keys s = (Throw e, s') → e = notIterable.
Proof.
  revert s. induction keys as [|key keys IH]; intros s; [done|].
  rewrite run_forEachM_cons.
  destruct (mergeKey acc curr key s) as [[[]|e1] s1] eqn:Hkey.
  - apply IH.
  - intros [= <- <-]. by eapply mergeKey_throws.
Qed.

Lemma reduceM_reducer_throws (fragments : list val) (acc : nat) (s : State)
    (e : exn) (s' : State) :
  reduceM reducer fragments acc s = (Throw e, s') → e = notIterable.
Proof.
  revert acc s. induction fragments as [|curr rest IH]; intros acc s; [done|].
  cbn [reduceM]. rewrite run_bind.
  destruct (reducer acc curr s) as [[acc'|e1] s1] eqn:Hcurr.
  - apply IH.
  - intros [= <- <-]. revert Hcurr.
    unfold reducer, mbind, M_bind, gets, mret, M_ret.
    destruct (forEachM (mergeKey acc curr) _ s) as [[[]|e2] s2] eqn:Hloop;
      intros [= <- <-]. by eapply forEachM_mergeKey_throws.
Qed.

(** X9: the only failure of the accessor, and what it leaves.  When a call
    of the accessor throws, the error is the TypeError of spreading a
    fragment value that is not iterable onto an array category; nothing was
    cached before the call and nothing is cached after it, so the next call
    runs the reduction again. *)
Theorem accessor_failure (init : nat) (fragments : list val) (s : State)
    (e : exn) (s' : State) :
  init < length (objs s) →
  getApplicationGuardedRoutes init fragments s = (Throw e, s') →
  e = notIterable ∧
  truthy (mergedApplicationGuardedRoutes s) = false ∧
  mergedApplicationGuardedRoutes s' = mergedApplicationGuardedRoutes s ∧
  getApplicationGuardedRoutes init fragments s'
  = match reduceM reducer fragments init s' with
    | (Ok merged, s2) => (Ok (VObj merged), set_merged (VObj merged) s2)
    | (Throw e2, s2) => (Throw e2, s2)
    end.
Proof.
  intros Hinit Hrun.
  destruct (accessor_outcome _ _ _ _ _ Hinit Hrun)
    as [(_ & [=] & _)|(Hcached & s1 & E & [[[=] _]|(e1 & [= ->] & ->)])].
  assert (Hsame : mergedApplicationGuardedRoutes s1
                  = mergedApplicationGuardedRoutes s) by apply E.
  split; [|split; [done|split; [done|]]].
  - revert Hrun. rewrite accessor_uncached by done.
    destruct (reduceM reducer fragments init s) as [[merged|e2] s2] eqn:Hred;
      intros [= <- <-]. by eapply reduceM_reducer_throws.
  - apply accessor_uncached. by rewrite Hsame.
Qed.

Lemma accessor_failure_witness :
  let accessor := getApplicationGuardedRoutes 0 [VObj 1; VObj 2] in
  notIterable = notIterable ∧
  truthy (mergedApplicationGuardedRoutes mixedState) = false ∧
  mergedApplicationGuardedRoutes (snd (accessor mixedState))
    = mergedApplicationGuardedRoutes mixedState.
Proof.
  intros accessor.
  destruct (accessor_failure 0 [VObj 1; VObj 2] mixedState notIterable
              (snd (accessor mixedState))) as (He & Hbefore & Hafter & _).
  - cbn. lia.
  - unfold accessor. by_outcome.
  - exact (conj He (conj Hbefore Hafter)).
Defined.

(** ** When one fragment can be merged *)

(** X10: when the reducer succeeds.  For a fragment and categories that are
    allocated and distinct from the accumulator object, the reducer returns
    the accumulator exactly when every category of the fragment that meets an
    array of the accumulator holds a value that can be spread (an array or a
    string); in every other case it throws the TypeError of the spread. *)
Theorem reducer_succeeds_iff (init : nat) (curr : val) (s : State) :
  init < length (objs s) →
  allocatedIn init s curr →
  (∀ key, allocatedIn init s (get (objProps s init) key) ∧
          allocatedIn init s (get (ownProps s curr) key)) →
  ((∃ s', reducer init curr s = (Ok init, s')) ↔
   (∀ key, is_Some (ownProps s curr !! key) →
           isArray (get (objProps s init) key) = true →
           is_Some (iterate s (get (ownProps s curr) key)))) ∧
  (∀ r s', reducer init curr s = (r, s') → r = Ok init ∨ r = Throw notIterable).
Proof.
  intros Hinit Hcurr Hcats. split; [split|].
  - intros [s' Hrun] key Hkey Harr.
    destruct (reducer_spec init curr s Hinit Hcurr Hcats _ s' Hrun) as [Hok _].
    specialize (Hok eq_refl key). rewrite decide_True in Hok by done.
    unfold keyMerged in Hok. cbn zeta in Hok. rewrite Harr in Hok.
    destruct Hok as (currElems & a & -> & _). by eexists.
  - intros Hiterable.
    destruct (reducer init curr s) as [r s'] eqn:Hrun.
    destruct (reducer_spec init curr s Hinit Hcurr Hcats r s' Hrun)
      as [_ Hsucceeds].
    exists s'. by rewrite (Hsucceeds Hiterable).
  - intros r s' Hrun.
    destruct (reducer_extends _ _ _ _ _ Hinit Hrun) as [_ [->|[e ->]]];
      [by left|right].
    revert Hrun. unfold reducer, mbind, M_bind, gets, mret, M_ret.
    destruct (forEachM (mergeKey init curr) _ s) as [[[]|e'] s2] eqn:Hloop;
      intros [= <- <-]. by rewrite (forEachM_mergeKey_throws _ _ _ _ _ _ Hloop).
Qed.

Lemma reducer_succeeds_iff_witness :
  (∃ s', reducer 0 (VObj 1) mixedState = (Ok 0, s')) ∧
  ¬ (∃ s', reducer 0 (VObj 2) mixedState = (Ok 0, s')) ∧
  fst (reducer 0 (VObj 2) mixedState) = Throw notIterable.
Proof.
  assert (Hinit : objProps mixedState 0 = {[ "roles" := VArr 0 ]})
    by reflexivity.
  assert (Hfirst : ownProps mixedState (VObj 1) = {[ "roles" := VArr 1 ]})
    by reflexivity.
  assert (Hsecond : ownProps mixedState (VObj 2) = {[ "roles" := VObj 3 ]})
    by reflexivity.
  assert (Hcats : ∀ curr target, ownProps mixedState curr = {[ "roles" := target ]} →
            allocatedIn 0 mixedState target →
            ∀ key, allocatedIn 0 mixedState (get (objProps mixedState 0) key) ∧
                   allocatedIn 0 mixedState (get (ownProps mixedState curr) key)).
  { intros curr target Hprops Htarget key. rewrite Hinit, Hprops. unfold get.
    destruct (decide (key = "roles")) as [->|Hne].
    - rewrite !lookup_singleton_eq. split; [cbn; lia|done].
    - by rewrite !lookup_singleton_ne. }
  destruct (reducer_succeeds_iff 0 (VObj 1) mixedState) as [[_ Hsucceeds] _].
  { cbn. lia. } { cbn. lia. } { apply (Hcats _ _ Hfirst). cbn. lia. }
  destruct (reducer_succeeds_iff 0 (VObj 2) mixedState) as [[Hneeds _] Honly].
  { cbn. lia. } { cbn. lia. } { apply (Hcats _ _ Hsecond). cbn. lia. }
  split; [|split].
  - apply Hsucceeds. intros key Hkey _. rewrite Hfirst in Hkey |- *.
    apply lookup_singleton_is_Some in Hkey as ->. unfold get.
    rewrite lookup_singleton_eq. by eexists.
  - intros Hok. destruct (Hneeds Hok "roles") as [elems Helems].
    + rewrite Hsecond, lookup_singleton_eq. by eexists.
    + by rewrite Hinit.
    + rewrite Hsecond in Helems. discriminate.
  - destruct (Honly _ _ (surjective_pairing _)) as [Hr|Hr]; [|done].
    exfalso. apply (f_equal (λ r, match r with Ok _ => true | Throw _ => false end))
      in Hr. vm_compute in Hr. discriminate.
Defined.

(** ** The merged configuration as a function of the fragments *)

Lemma allocatedIn_frame (init : nat) (s s' : State) (v : val) :
  frame init s s' → allocatedIn init s v → allocatedIn init s' v.
Proof.
  intros [Harrs Hlen _]. apply prefix_length in Harrs.
  destruct v; cbn; try done; lia.
Qed.

Lemma ownProps_falsy (s : State) (v : val) :
  truthy v = false → ownProps s v = ∅.
Proof. destruct v as [| | | |str| | | |]; try done. by destruct str. Qed.

Lemma get_empty (key : string) : get ∅ key = VUndef.
Proof. done. Qed.

(** One fragment, read category by category. *)
Lemma reducer_view (init : nat) (curr : val) (s s1 : State) (key : string) :
  init < length (objs s) →
  allocatedIn init s curr →
  (∀ key, allocatedIn init s (get (objProps s init) key) ∧
          allocatedIn init s (get (ownProps s curr) key)) →
  reducer init curr s = (Ok init, s1) →
  allocatedIn init s1 (get (objProps s1 init) key) ∧
  if isArray (get (objProps s init) key)
  then iterate s1 (get (objProps s1 init) key)
       = Some (default [] (iterate s (get (objProps s init) key))
               ++ default [] (iterate s (fragmentValue s curr key)))
  else ownProps s1 (get (objProps s1 init) key)
       = ownProps s (fragmentValue s curr key)
         ∪ ownProps s (get (objProps s init) key).
Proof.
  intros Hinit Hcurr Hcats Hrun.
  destruct (reducer_extends _ _ _ _ _ Hinit Hrun) as [E _].
  pose proof (ext_frame _ _ _ E) as F.
  destruct (Hcats key) as [HaccOk HcurrOk].
  destruct (reducer_spec init curr s Hinit Hcurr Hcats _ s1 Hrun) as [Hok _].
  specialize (Hok eq_refl key). unfold fragmentValue.
  case_decide as Hkey.
  - unfold keyMerged in Hok. cbn zeta in Hok.
    destruct (isArray (get (objProps s init) key)) eqn:Harr.
    + destruct Hok as (currElems & a & Hiter & -> & _ & Ha). split.
      * cbn. by eapply lookup_lt_Some.
      * cbn. unfold arrElems. by rewrite Ha, Hiter.
    + destruct (truthy (get (ownProps s curr) key)) eqn:Htruthy.
      * destruct Hok as (l & props & -> & Hfresh & Hl & Hroutes). split.
        -- cbn. split; [by eapply lookup_lt_Some|lia].
        -- cbn. unfold objProps at 1. rewrite Hl. cbn.
           apply map_eq. intros route. rewrite Hroutes, lookup_union.
           by destruct (ownProps s (get (ownProps s curr) key) !! route),
                       (ownProps s (get (objProps s init) key) !! route).
      * rewrite Hok. split; [by eapply allocatedIn_frame|].
        rewrite (frame_ownProps init s s1) by done.
        rewrite (ownProps_falsy s _ Htruthy). by rewrite (left_id_L ∅ (∪)).
  - rewrite Hok. split; [by eapply allocatedIn_frame|].
    assert (Hnone : get (ownProps s curr) key = VUndef).
    { apply get_None. by apply eq_None_not_Some. }
    rewrite Hnone. destruct (get (objProps s init) key) eqn:Hacc; cbn;
      try (by rewrite (left_id_L ∅ (∪))).
    + by rewrite (frame_arrElems init s s1), app_nil_r.
    + rewrite (left_id_L ∅ (∪)). destruct HaccOk.
      by apply (frame_objProps init).
Qed.

(** The reduction over a list of fragments that were allocated in [s0],
    started in a later state [s]. *)
Lemma reduceM_view (init : nat) (s0 : State) (fragments : list val) :
  init < length (objs s0) →
  (∀ curr, curr ∈ fragments →
     allocatedIn init s0 curr ∧
     ∀ key, allocatedIn init s0 (fragmentValue s0 curr key)) →
  ∀ s acc s' key,
    frame init s0 s →
    (∀ key, allocatedIn init s (get (objProps s init) key)) →
    reduceM reducer fragments init s = (Ok acc, s') →
    if isArray (get (objProps s init) key)
    then iterate s' (get (objProps s' init) key)
         = Some (mergedSequence s0 fragments key
                   (default [] (iterate s (get (objProps s init) key))))
    else ownProps s' (get (objProps s' init) key)
         = mergedMapping s0 fragments key
             (ownProps s (get (objProps s init) key)).
Proof.
  intros Hinit. induction fragments as [|curr rest IH];
    intros Hfrags s acc s' key F Hcats.
  - intros [= <- <-]. unfold mergedSequence, mergedMapping. cbn.
    destruct (get (objProps s init) key); cbn; try done.
    by rewrite app_nil_r.
  - cbn [reduceM]. rewrite run_bind.
    destruct (reducer init curr s) as [[acc'|e] s1] eqn:Hcurr; [|done].
    assert (Hs : init < length (objs s))
      by (pose proof (frame_length _ _ _ F); lia).
    destruct (reducer_extends _ _ _ _ _ Hs Hcurr) as [E1 [[= ->]|[? [=]]]].
    destruct (Hfrags curr) as [HcurrOk HcurrCats]; [by left|].
    assert (Hread : ownProps s curr = ownProps s0 curr)
      by (by apply (frame_ownProps init)).
    assert (Hcats' : ∀ key, allocatedIn init s (get (objProps s init) key) ∧
                            allocatedIn init s (get (ownProps s curr) key)).
    { intros k. split; [done|]. rewrite Hread.
      eapply allocatedIn_frame; [done|]. apply HcurrCats. }
    assert (HcurrOk' : allocatedIn init s curr)
      by (by eapply allocatedIn_frame).
    intros Hrest.
    assert (Hvalue : ∀ k, fragmentValue s curr k = fragmentValue s0 curr k)
      by (intros k; unfold fragmentValue; by rewrite Hread).
    specialize (IH (λ f Hf, Hfrags f (list_elem_of_further _ _ _ Hf))
                   s1 acc s' key (frame_trans _ _ _ _ F (ext_frame _ _ _ E1))
                   (λ k, proj1 (reducer_view init curr s s1 k Hs HcurrOk' Hcats' Hcurr))
                   Hrest).
    destruct (reducer_view init curr s s1 key Hs HcurrOk' Hcats' Hcurr)
      as [_ Hstep].
    assert (Hkind : isArray (get (objProps s1 init) key)
                    = isArray (get (objProps s init) key)).
    { revert Hcurr. unfold reducer, mbind, M_bind, gets, mret, M_ret.
      destruct (forEachM (mergeKey init curr) _ s) as [[[]|e] s2] eqn:Hloop;
        intros [= <-]. by eapply forEachM_mergeKey_isArray. }
    rewrite Hkind in IH.
    destruct (isArray (get (objProps s init) key)).
    + rewrite IH, Hstep, Hvalue. unfold mergedSequence. cbn.
      rewrite (frame_iterate init s0 s (fragmentValue s0 curr key) F)
        by apply HcurrCats.
      by rewrite <- app_assoc.
    + rewrite IH, Hstep, Hvalue. unfold mergedMapping. cbn.
      by rewrite (frame_ownProps init s0 s (fragmentValue s0 curr key) F)
        by apply HcurrCats.
Qed.

(** X11: the merged configuration, category by category.  After the first
    access of a configuration whose fragments and category values are
    allocated and distinct from the initial object, a category that is an
    array in the initial value holds the initial elements followed by the
    elements each fragment holds for it, in the order of the fragment list;
    any other category holds the properties obtained by laying each fragment's
    value for it, in that order, over those of the initial value, so that for
    a route defined by several fragments the last one wins. *)
Theorem merged_configuration (init : nat) (fragments : list val) (s : State)
    (v : val) (s' : State) (key : string) :
  init < length (objs s) →
  mergedApplicationGuardedRoutes s = VUndef →
  (∀ key, allocatedIn init s (get (objProps s init) key)) →
  (∀ curr, curr ∈ fragments →
     allocatedIn init s curr ∧
     ∀ key, allocatedIn init s (fragmentValue s curr key)) →
  getApplicationGuardedRoutes init fragments s = (Ok v, s') →
  if isArray (get (objProps s init) key)
  then iterate s' (get (objProps s' init) key)
       = Some (mergedSequence s fragments key
                 (default [] (iterate s (get (objProps s init) key))))
  else ownProps s' (get (objProps s' init) key)
       = mergedMapping s fragments key (ownProps s (get (objProps s init) key)).
Proof.
  intros Hinit Hundef Hcats Hfrags.
  rewrite accessor_uncached by (by rewrite Hundef).
  destruct (reduceM reducer fragments init s) as [[merged|e] s1] eqn:Hred;
    intros [= <- <-].
  change (objProps (set_merged (VObj merged) s1) init) with (objProps s1 init).
  pose proof (reduceM_view init s fragments Hinit Hfrags s merged s1 key
                (frame_refl _ _) Hcats Hred) as Hview.
  destruct (isArray (get (objProps s init) key)); [|exact Hview].
  rewrite <- Hview. by destruct (get (objProps s1 init) key).
Qed.

Lemma merged_configuration_witness :
  let s1 := snd (getApplicationGuardedRoutes 0 [VObj 1; VObj 2] sequenceState) in
  iterate s1 (get (objProps s1 0) "roles") = Some [VStr "admin"; VStr "editor"].
Proof.
  intros s1.
  assert (Hinit : objProps sequenceState 0 = {[ "roles" := VArr 0 ]})
    by reflexivity.
  assert (Hone : ownProps sequenceState (VObj 1) = {[ "roles" := VArr 1 ]})
    by reflexivity.
  assert (Htwo : ownProps sequenceState (VObj 2) = {[ "roles" := VArr 2 ]})
    by reflexivity.
  assert (Hsingle : ∀ (target : val) key,
            allocatedIn 0 sequenceState target →
            allocatedIn 0 sequenceState
              (get ({[ "roles" := target ]} : gmap string val) key)).
  { intros target key Htarget. unfold get.
    destruct (decide (key = "roles")) as [->|Hne].
    - by rewrite lookup_singleton_eq.
    - by rewrite lookup_singleton_ne. }
  pose proof (merged_configuration 0 [VObj 1; VObj 2] sequenceState (VObj 0) s1
                "roles") as Hmerged.
  assert (Harr : isArray (get (objProps sequenceState 0) "roles") = true)
    by (vm_compute; reflexivity).
  rewrite Harr in Hmerged. rewrite Hmerged.
  - vm_compute. reflexivity.
  - cbn. lia.
  - reflexivity.
  - intros key. rewrite Hinit. apply Hsingle. cbn. lia.
  - intros curr Hcurr. unfold fragmentValue.
    apply elem_of_cons in Hcurr as [Hfirst|Hcurr].
    { subst curr. split; [cbn; lia|]. intros key. rewrite Hone.
      apply Hsingle. cbn. lia. }
    apply elem_of_cons in Hcurr as [Hsecond|Hcurr].
    { subst curr. split; [cbn; lia|]. intros key. rewrite Htwo.
      apply Hsingle. cbn. lia. }
    apply elem_of_nil in Hcurr. destruct Hcurr.
  - unfold s1. by_outcome.
Defined.

(** * Further properties of the guard predicates *)

(** ** Running a predicate *)

(** The lookup of a category, case by case. *)
Lemma lookupThen_run {A} (accessor : M val) (category path : string)
    (k : val → M A) (s : State) :
  lookupThen accessor category path k s
  = match accessor s with
    | (Ok config, s1) =>
        if nullish config then (Throw readError, s1)
        else if nullish (get (ownProps s1 config) category)
             then (Throw readError, s1)
             else k (searchMapForRoute path
                       (ownProps s1 (get (ownProps s1 config) category))) s1
    | (Throw e, s1) => (Throw e, s1)
    end.
Proof.
  unfold lookupThen. rewrite run_bind.
  destruct (accessor s) as [[config|e] s1]; [|done].
  destruct config; try done; rewrite run_bind; cbn [getProp gets nullish];
    match goal with
    | |- context [get ?props category] => destruct (get props category)
    end; done.
Qed.

Lemma checkRouteForRole_run (accessor : M val) (path : string) (s : State) :
  Guide.checkRouteForRole accessor path s
  = lookupThen accessor "roleBasedRoutes" path
      (λ roles, if negb (truthy roles) then mret true
                else isAdmin ← Guide.includes roles "admin"; mret (negb isAdmin))
      (record_call "checkRouteForRole" s).
Proof. reflexivity. Qed.

Lemma checkRouteForFeatureFlag_run (getFlags : val → M bool) (accessor : M val)
    (path : string) (s : State) :
  Guide.checkRouteForFeatureFlag getFlags accessor path s
  = lookupThen accessor "featureFlaggedRoutes" path
      (λ flags, if negb (truthy flags) then mret true else getFlags flags)
      (record_call "checkRouteForFeatureFlag" s).
Proof. reflexivity. Qed.

Lemma checkRouteForSpecialChecks_run (callFunction : nat → M bool)
    (accessor : M val) (path : string) (s : State) :
  Guide.checkRouteForSpecialChecks callFunction accessor path s
  = lookupThen accessor "specialChecksRoutes" path
      (λ check, if negb (truthy check) then mret true
                else Guide.call callFunction check)
      (record_call "checkRouteForSpecialChecks" s).
Proof. reflexivity. Qed.

Lemma isPlainObject_nullish (v : val) :
  isPlainObject v = true → nullish v = false.
Proof. by destruct v. Qed.

Lemma lookupThen_noRule {A} (accessor : M val) (category path : string)
    (k : val → M A) (s : State) (config : val) (s1 : State) :
  accessor s = (Ok config, s1) → noRule s1 config category path →
  lookupThen accessor category path k s
  = k (searchMapForRoute path (ownProps s1 (get (ownProps s1 config) category))) s1.
Proof.
  intros Hacc (Hconfig & Hcat & _).
  by rewrite lookupThen_run, Hacc, Hconfig, (isPlainObject_nullish _ Hcat).
Qed.

Lemma lookupThen_found {A} (accessor : M val) (category path : string)
    (k : val → M A) (s : State) (config : val) (s1 : State) (found : val) :
  accessor s = (Ok config, s1) → ruleFound s1 config category path found →
  lookupThen accessor category path k s = k found s1.
Proof.
  intros Hacc (Hconfig & Hcat & Hfound & _).
  by rewrite lookupThen_run, Hacc, Hconfig, (isPlainObject_nullish _ Hcat),
       Hfound.
Qed.

Lemma lookupThen_missing {A} (accessor : M val) (category path : string)
    (k : val → M A) (s : State) (config : val) (s1 : State) :
  accessor s = (Ok config, s1) → categoryMissing s1 config category →
  lookupThen accessor category path k s = (Throw readError, s1).
Proof.
  intros Hacc Hmissing. rewrite lookupThen_run, Hacc.
  destruct (nullish config) eqn:Hconfig; [done|].
  destruct Hmissing as [Hm|Hm]; [congruence|]. by rewrite Hm.
Qed.

(** X12: no rule means allow.  When the configuration has the category a
    predicate reads, as a plain object, and the lookup of the path in it
    gives no truthy value, neither from its entries nor from what it
    inherits, the predicate resolves [true] in the state the accessor left:
    the flag service and the custom checks are not consulted. *)
Theorem absent_rule_allows (getFlags : val → M bool) (callFunction : nat → M bool)
    (accessor : M val) (path : string) (s : State) :
  (∀ config s1,
     accessor (record_call "checkRouteForRole" s) = (Ok config, s1) →
     noRule s1 config "roleBasedRoutes" path →
     Guide.checkRouteForRole accessor path s = (Ok true, s1)) ∧
  (∀ config s1,
     accessor (record_call "checkRouteForFeatureFlag" s) = (Ok config, s1) →
     noRule s1 config "featureFlaggedRoutes" path →
     Guide.checkRouteForFeatureFlag getFlags accessor path s = (Ok true, s1)) ∧
  (∀ config s1,
     accessor (record_call "checkRouteForSpecialChecks" s) = (Ok config, s1) →
     noRule s1 config "specialChecksRoutes" path →
     Guide.checkRouteForSpecialChecks callFunction accessor path s = (Ok true, s1)).
Proof.
  split; [|split]; intros config s1 Hacc Hnone.
  - rewrite checkRouteForRole_run, (lookupThen_noRule _ _ _ _ _ _ _ Hacc Hnone).
    destruct Hnone as (_ & _ & ->). done.
  - rewrite checkRouteForFeatureFlag_run,
      (lookupThen_noRule _ _ _ _ _ _ _ Hacc Hnone).
    destruct Hnone as (_ & _ & ->). done.
  - rewrite checkRouteForSpecialChecks_run,
      (lookupThen_noRule _ _ _ _ _ _ _ Hacc Hnone).
    destruct Hnone as (_ & _ & ->). done.
Qed.

(** X13: a missing category is a TypeError.  When the configuration is
    [undefined] or [null], or does not have the category a predicate reads,
    the predicate throws the TypeError of reading a property of
    [undefined]. *)
Theorem missing_category_throws (getFlags : val → M bool)
    (callFunction : nat → M bool) (accessor : M val) (path : string) (s : State) :
  (∀ config s1,
     accessor (record_call "checkRouteForRole" s) = (Ok config, s1) →
     categoryMissing s1 config "roleBasedRoutes" →
     Guide.checkRouteForRole accessor path s = (Throw readError, s1)) ∧
  (∀ config s1,
     accessor (record_call "checkRouteForFeatureFlag" s) = (Ok config, s1) →
     categoryMissing s1 config "featureFlaggedRoutes" →
     Guide.checkRouteForFeatureFlag getFlags accessor path s
     = (Throw readError, s1)) ∧
  (∀ config s1,
     accessor (record_call "checkRouteForSpecialChecks" s) = (Ok config, s1) →
     categoryMissing s1 config "specialChecksRoutes" →
     Guide.checkRouteForSpecialChecks callFunction accessor path s
     = (Throw readError, s1)).
Proof.
  split; [|split]; intros config s1 Hacc Hmissing.
  - by rewrite checkRouteForRole_run, (lookupThen_missing _ _ _ _ _ _ _ Hacc).
  - by rewrite checkRouteForFeatureFlag_run,
         (lookupThen_missing _ _ _ _ _ _ _ Hacc).
  - by rewrite checkRouteForSpecialChecks_run,
         (lookupThen_missing _ _ _ _ _ _ _ Hacc).
Qed.

(** X14: what a rule decides.  When the category is a plain object and the
    lookup of the path in it gives the truthy value [found]: the role check,
    for an array, resolves [false] exactly when the array has the element
    ["admin"]; the flag check is the answer of the flag service on [found];
    the special check, for a function of the application, is the outcome of
    calling it.  Each runs in the state the accessor left. *)
Theorem found_rule_decides (getFlags : val → M bool) (callFunction : nat → M bool)
    (accessor : M val) (path : string) (s : State) :
  (∀ config s1 a,
     accessor (record_call "checkRouteForRole" s) = (Ok config, s1) →
     ruleFound s1 config "roleBasedRoutes" path (VArr a) →
     Guide.checkRouteForRole accessor path s
     = (Ok (negb (bool_decide (VStr "admin" ∈ arrElems s1 a))), s1)) ∧
  (∀ config s1 found,
     accessor (record_call "checkRouteForFeatureFlag" s) = (Ok config, s1) →
     ruleFound s1 config "featureFlaggedRoutes" path found →
     Guide.checkRouteForFeatureFlag getFlags accessor path s = getFlags found s1) ∧
  (∀ config s1 f,
     accessor (record_call "checkRouteForSpecialChecks" s) = (Ok config, s1) →
     ruleFound s1 config "specialChecksRoutes" path (VFun f) →
     Guide.checkRouteForSpecialChecks callFunction accessor path s
     = callFunction f s1).
Proof.
  split; [|split].
  - intros config s1 a Hacc Hfound.
    by rewrite checkRouteForRole_run, (lookupThen_found _ _ _ _ _ _ _ _ Hacc Hfound).
  - intros config s1 found Hacc Hfound.
    rewrite checkRouteForFeatureFlag_run,
      (lookupThen_found _ _ _ _ _ _ _ _ Hacc Hfound).
    destruct Hfound as (_ & _ & _ & ->). done.
  - intros config s1 f Hacc Hfound.
    by rewrite checkRouteForSpecialChecks_run,
         (lookupThen_found _ _ _ _ _ _ _ _ Hacc Hfound).
Qed.

(** X15: a rule of the wrong type is a TypeError.  With the category a plain
    object: the role check throws when the value found is truthy and has no
    method [includes] (it is neither an array nor a string, nor an object
    holding something callable under that name); the special check throws
    when the value found is truthy and cannot be called, without calling
    anything. *)
Theorem ill_typed_rule_throws (callFunction : nat → M bool) (accessor : M val)
    (path : string) (s : State) :
  (∀ config s1 found,
     accessor (record_call "checkRouteForRole" s) = (Ok config, s1) →
     ruleFound s1 config "roleBasedRoutes" path found →
     lacksIncludes s1 found = true →
     Guide.checkRouteForRole accessor path s
     = (Throw (TypeError "roles.includes is not a function"), s1)) ∧
  (∀ config s1 found,
     accessor (record_call "checkRouteForSpecialChecks" s) = (Ok config, s1) →
     ruleFound s1 config "specialChecksRoutes" path found →
     isCallable found = false →
     Guide.checkRouteForSpecialChecks callFunction accessor path s
     = (Throw (TypeError "relevantRouteValues is not a function"), s1)).
Proof.
  split.
  - intros config s1 found Hacc Hfound Hlacks.
    rewrite checkRouteForRole_run,
      (lookupThen_found _ _ _ _ _ _ _ _ Hacc Hfound).
    destruct Hfound as (_ & _ & _ & Htruthy).
    rewrite Htruthy. cbn [negb].
    by destruct found.
  - intros config s1 found Hacc Hfound Hcall.
    rewrite checkRouteForSpecialChecks_run,
      (lookupThen_found _ _ _ _ _ _ _ _ Hacc Hfound).
    destruct Hfound as (_ & _ & _ & Htruthy).
    rewrite Htruthy. cbn [negb].
    destruct found as [| | | | | | | |name]; try done.
    cbn in Hcall. apply negb_false_iff, bool_decide_eq_true in Hcall.
    by subst name.
Qed.

(** Settles a conjunction of closed equations by evaluating each one. *)
Ltac by_evaluation :=
  unfold noRule, ruleFound;
  repeat lazymatch goal with |- _ ∧ _ => split end; vm_compute; reflexivity.

Lemma absent_rule_allows_witness :
  let accessor := getApplicationGuardedRoutes 0 [] in
  Guide.checkRouteForRole accessor "/public" emptyCached
    = (Ok true, snd (accessor (record_call "checkRouteForRole" emptyCached))) ∧
  Guide.checkRouteForFeatureFlag flagsOn accessor "/public" emptyCached
    = (Ok true, snd (accessor (record_call "checkRouteForFeatureFlag" emptyCached))) ∧
  Guide.checkRouteForSpecialChecks checkFails accessor "/public" emptyCached
    = (Ok true, snd (accessor (record_call "checkRouteForSpecialChecks" emptyCached))).
Proof.
  intros accessor.
  destruct (absent_rule_allows flagsOn checkFails accessor "/public" emptyCached)
    as (Hrole & Hflag & Hspecial).
  split; [|split].
  - apply (Hrole (VObj 0)); [by_outcome|by_evaluation].
  - apply (Hflag (VObj 0)); [by_outcome|by_evaluation].
  - apply (Hspecial (VObj 0)); [by_outcome|by_evaluation].
Defined.

Lemma missing_category_throws_witness :
  let accessor := getApplicationGuardedRoutes 0 [] in
  Guide.checkRouteForSpecialChecks checkFails accessor "/public" incompleteCached
  = (Throw readError,
     snd (accessor (record_call "checkRouteForSpecialChecks" incompleteCached))).
Proof.
  intros accessor.
  destruct (missing_category_throws flagsOn checkFails accessor "/public"
              incompleteCached) as (_ & _ & Hspecial).
  apply (Hspecial (VObj 0)); [by_outcome|].
  right. vm_compute. reflexivity.
Defined.

Lemma found_rule_decides_witness :
  let accessor := getApplicationGuardedRoutes 0 [VObj 4] in
  Guide.checkRouteForRole accessor "/admin-only-route" guideMerged
    = (Ok (negb (bool_decide
                   (VStr "admin"
                    ∈ arrElems (snd (accessor (record_call "checkRouteForRole"
                                                 guideMerged))) 0))),
       snd (accessor (record_call "checkRouteForRole" guideMerged))) ∧
  Guide.checkRouteForFeatureFlag flagsOn accessor "/beta-route" guideMerged
    = flagsOn (VArr 1)
        (snd (accessor (record_call "checkRouteForFeatureFlag" guideMerged))) ∧
  Guide.checkRouteForSpecialChecks checkFails accessor "/special-route" guideMerged
    = checkFails 0
        (snd (accessor (record_call "checkRouteForSpecialChecks" guideMerged))).
Proof.
  intros accessor.
  destruct (found_rule_decides flagsOn checkFails accessor "/admin-only-route"
              guideMerged) as (Hrole & _ & _).
  destruct (found_rule_decides flagsOn checkFails accessor "/beta-route"
              guideMerged) as (_ & Hflag & _).
  destruct (found_rule_decides flagsOn checkFails accessor "/special-route"
              guideMerged) as (_ & _ & Hspecial).
  split; [|split].
  - apply (Hrole (VObj 0)); [by_outcome|by_evaluation].
  - apply (Hflag (VObj 0)); [by_outcome|by_evaluation].
  - apply (Hspecial (VObj 0)); [by_outcome|by_evaluation].
Defined.

Lemma ill_typed_rule_throws_witness :
  let accessor := getApplicationGuardedRoutes 0 [VObj 4] in
  Guide.checkRouteForRole accessor "/special-route"
    (set_objs (λ h, <[0 := {[ "roleBasedRoutes" := VObj 7 ]}]> h) guideMerged)
  = (Throw (TypeError "roles.includes is not a function"),
     snd (accessor
            (record_call "checkRouteForRole"
               (set_objs (λ h, <[0 := {[ "roleBasedRoutes" := VObj 7 ]}]> h)
                  guideMerged)))).
Proof.
  intros accessor.
  destruct (ill_typed_rule_throws checkFails accessor "/special-route"
              (set_objs (λ h, <[0 := {[ "roleBasedRoutes" := VObj 7 ]}]> h)
                 guideMerged)) as (Hrole & _).
  apply (Hrole (VObj 0) _ (VFun 0)); [by_outcome|by_evaluation|reflexivity].
Defined.

(** * Further properties of the decision function and the middleware *)

Lemma ownProps_record_call (name : string) (s : State) (v : val) :
  ownProps (record_call name s) v = ownProps s v.
Proof. by destruct v. Qed.

Lemma noRule_record_call (name : string) (s : State) (config : val)
    (category path : string) :
  noRule s config category path → noRule (record_call name s) config category path.
Proof. unfold noRule. by rewrite !ownProps_record_call. Qed.

Lemma accessor_cached_entered (init : nat) (fragments : list val) (name : string)
    (s : State) :
  truthy (mergedApplicationGuardedRoutes s) = true →
  getApplicationGuardedRoutes init fragments (record_call name s)
  = (Ok (mergedApplicationGuardedRoutes s), record_call name s).
Proof. intros Hcached. by rewrite accessor_cached. Qed.

Lemma guide_allowed_run (getFlags : val → M bool) (callFunction : nat → M bool)
    (accessor : M val) (path : string) (s : State) :
  Guide.isPathAllowedWithGetApplicationGuardedRoutes getFlags callFunction
    accessor path s
  = match Guide.checkRouteForRole accessor path s with
    | (Ok true, s1) =>
        match Guide.checkRouteForFeatureFlag getFlags accessor path s1 with
        | (Ok true, s2) => Guide.checkRouteForSpecialChecks callFunction accessor path s2
        | (Ok false, s2) => (Ok false, s2)
        | (Throw e, s2) => (Throw e, s2)
        end
    | (Ok false, s1) => (Ok false, s1)
    | (Throw e, s1) => (Throw e, s1)
    end.
Proof.
  unfold Guide.isPathAllowedWithGetApplicationGuardedRoutes, Guide.andAwait.
  rewrite !run_bind.
  destruct (Guide.checkRouteForRole accessor path s) as [[[]|e] s1]; [|done..].
  by destruct (Guide.checkRouteForFeatureFlag getFlags accessor path s1)
    as [[[]|e] s2].
Qed.

(** X16: a path without rules passes.  Once the configuration is cached, a
    path for which the lookup in each of the three categories, each a plain
    object, gives no truthy value, neither from its entries nor from what it
    inherits, is allowed, and [guardMiddleware] returns the supplied response
    for a request to it.  Only the trace of the three predicates is added to the
    state: neither the flag service nor any custom check is consulted, and
    the rejection handler is not called. *)
Theorem unguarded_path_passes (getFlags : val → M bool)
    (callFunction : nat → M bool) (init : nat) (fragments : list val)
    (reject : M val → NextUrl → M val) (request : NextRequest) (response : val)
    (s : State) :
  let api := generateGuardedRoutes
               (guideParams getFlags callFunction init fragments reject) in
  let path := pathname (nextUrl request) in
  let config := mergedApplicationGuardedRoutes s in
  let s' := record_call "checkRouteForSpecialChecks"
              (record_call "checkRouteForFeatureFlag"
                 (record_call "checkRouteForRole" s)) in
  truthy config = true →
  noRule s config "roleBasedRoutes" path →
  noRule s config "featureFlaggedRoutes" path →
  noRule s config "specialChecksRoutes" path →
  isPathAllowed api path s = (Ok true, s') ∧
  guardMiddleware api request response s = (Ok response, s').
Proof.
  intros api path config s' Hcached Hrole Hflag Hspecial.
  assert (Hallowed : isPathAllowed api path s = (Ok true, s')).
  { cbn [api generateGuardedRoutes isPathAllowed guideParams
         isPathAllowedWithGetApplicationGuardedRoutes initValue
         applicationGuardedRoutes].
    rewrite guide_allowed_run.
    rewrite checkRouteForRole_run,
      (lookupThen_noRule _ _ _ _ _ config (record_call "checkRouteForRole" s)).
    2: by apply accessor_cached_entered.
    2: by apply noRule_record_call.
    destruct Hrole as (_ & _ & Hr). rewrite !ownProps_record_call, Hr.
    cbn [truthy negb mret M_ret].
    rewrite checkRouteForFeatureFlag_run,
      (lookupThen_noRule _ _ _ _ _ config
         (record_call "checkRouteForFeatureFlag" (record_call "checkRouteForRole" s))).
    2: by apply accessor_cached_entered.
    2: by do 2 apply noRule_record_call.
    destruct Hflag as (_ & _ & Hf). rewrite !ownProps_record_call, Hf.
    cbn [truthy negb mret M_ret].
    rewrite checkRouteForSpecialChecks_run,
      (lookupThen_noRule _ _ _ _ _ config s').
    2: by apply accessor_cached_entered.
    2: by do 3 apply noRule_record_call.
    destruct Hspecial as (_ & _ & Hs). unfold s'.
    by rewrite !ownProps_record_call, Hs. }
  split; [done|].
  subst api. rewrite guardMiddleware_run. cbn zeta. fold path.
  by rewrite Hallowed.
Qed.

Lemma unguarded_path_passes_witness :
  let api := generateGuardedRoutes
               (guideParams flagsOn checkFails 0 [] (rejectWith (VNum 404))) in
  isPathAllowed api "/public" emptyCached
    = (Ok true,
       record_call "checkRouteForSpecialChecks"
         (record_call "checkRouteForFeatureFlag"
            (record_call "checkRouteForRole" emptyCached))) ∧
  guardMiddleware api (requestFor "/public") (VStr "next") emptyCached
    = (Ok (VStr "next"),
       record_call "checkRouteForSpecialChecks"
         (record_call "checkRouteForFeatureFlag"
            (record_call "checkRouteForRole" emptyCached))).
Proof.
  apply (unguarded_path_passes flagsOn checkFails 0 [] (rejectWith (VNum 404))
           (requestFor "/public") (VStr "next") emptyCached);
    [reflexivity|by_evaluation..].
Defined.

(** X17: a missing optional category closes the gate.  When the role check
    and the flag check pass and the configuration then lacks
    [specialChecksRoutes], [isPathAllowed] rejects with the TypeError of
    reading a property of [undefined], and [guardMiddleware] logs it and
    answers with the rejection handler: such a request is rejected, whatever
    its path. *)
Theorem missing_special_checks_rejects (getFlags : val → M bool)
    (callFunction : nat → M bool) (init : nat) (fragments : list val)
    (reject : M val → NextUrl → M val) (request : NextRequest) (response : val)
    (s s1 s2 s3 : State) (config : val) :
  let api := generateGuardedRoutes
               (guideParams getFlags callFunction init fragments reject) in
  let accessor := getApplicationGuardedRoutes init fragments in
  let path := pathname (nextUrl request) in
  Guide.checkRouteForRole accessor path s = (Ok true, s1) →
  Guide.checkRouteForFeatureFlag getFlags accessor path s1 = (Ok true, s2) →
  accessor (record_call "checkRouteForSpecialChecks" s2) = (Ok config, s3) →
  categoryMissing s3 config "specialChecksRoutes" →
  isPathAllowed api path s = (Throw readError, s3) ∧
  guardMiddleware api request response s
  = reject accessor (nextUrl request) (console_error readError s3).
Proof.
  intros api accessor path Hrole Hflag Hacc Hmissing.
  assert (Hthrows : isPathAllowed api path s = (Throw readError, s3)).
  { cbn [api generateGuardedRoutes isPathAllowed guideParams
         isPathAllowedWithGetApplicationGuardedRoutes initValue
         applicationGuardedRoutes].
    fold accessor. rewrite guide_allowed_run, Hrole, Hflag.
    rewrite checkRouteForSpecialChecks_run.
    by apply (lookupThen_missing _ _ _ _ _ config). }
  split; [done|].
  subst api. rewrite guardMiddleware_run. cbn zeta. fold path.
  by rewrite Hthrows.
Qed.

Lemma missing_special_checks_rejects_witness :
  let api := generateGuardedRoutes
               (guideParams flagsOn checkFails 0 [] (rejectWith (VNum 404))) in
  fst (isPathAllowed api "/public" incompleteCached) = Throw readError ∧
  fst (guardMiddleware api (requestFor "/public") (VStr "next") incompleteCached)
    = Ok (VNum 404).
Proof.
  intros api.
  pose (accessor := getApplicationGuardedRoutes 0 []).
  pose (s1 := snd (Guide.checkRouteForRole accessor "/public" incompleteCached)).
  pose (s2 := snd (Guide.checkRouteForFeatureFlag flagsOn accessor "/public" s1)).
  pose (s3 := snd (accessor (record_call "checkRouteForSpecialChecks" s2))).
  destruct (missing_special_checks_rejects flagsOn checkFails 0 []
              (rejectWith (VNum 404)) (requestFor "/public") (VStr "next")
              incompleteCached s1 s2 s3 (VObj 0)) as [Hallowed Hmiddleware].
  - by_outcome.
  - by_outcome.
  - by_outcome.
  - right. vm_compute. reflexivity.
  - split.
    + unfold api. cbn [pathname nextUrl requestFor] in Hallowed.
      by rewrite Hallowed.
    + unfold api. by rewrite Hmiddleware.
Defined.

(** X18: only a failure of the rejection handler's call escapes the
    middleware.  When [guardMiddleware] throws, the decision had resolved
    [false], or had thrown and its exception had been logged, and what is
    thrown is the outcome of the call of the rejection handler made in the
    state that left.  So with a rejection handler whose call never throws,
    [guardMiddleware] never throws. *)
Theorem only_rejection_failures_escape (params : GenerateGuardedRoutesParams)
    (request : NextRequest) (response : val) :
  let api := generateGuardedRoutes params in
  let accessor :=
    getApplicationGuardedRoutes (initValue params) (applicationGuardedRoutes params) in
  let path := pathname (nextUrl request) in
  (∀ s e s',
     guardMiddleware api request response s = (Throw e, s') →
     ∃ s1,
       (isPathAllowed api path s = (Ok false, s1) ∨
        ∃ e1 s0, isPathAllowed api path s = (Throw e1, s0) ∧
                 s1 = console_error e1 s0) ∧
       middlewareReject params accessor (nextUrl request) s1 = (Throw e, s')) ∧
  ((∀ s1 e s2,
      middlewareReject params accessor (nextUrl request) s1 ≠ (Throw e, s2)) →
   ∀ s e s', guardMiddleware api request response s ≠ (Throw e, s')).
Proof.
  intros api accessor path.
  assert (Hthrow : ∀ s e s',
     guardMiddleware api request response s = (Throw e, s') →
     ∃ s1,
       (isPathAllowed api path s = (Ok false, s1) ∨
        ∃ e1 s0, isPathAllowed api path s = (Throw e1, s0) ∧
                 s1 = console_error e1 s0) ∧
       middlewareReject params accessor (nextUrl request) s1 = (Throw e, s')).
  { intros s e s'. subst api. rewrite guardMiddleware_run. cbn zeta. fold path.
    destruct (isPathAllowed (generateGuardedRoutes params) path s)
      as [[[]|e1] s1]; [done|..]; intros Hreject.
    - exists s1. split; [by left|done].
    - exists (console_error e1 s1). split; [|done]. right. by exists e1, s1. }
  split; [exact Hthrow|].
  intros Hnever s e s' Hrun.
  destruct (Hthrow _ _ _ Hrun) as (s1 & _ & Hreject).
  by eapply Hnever.
Qed.

Lemma only_rejection_failures_escape_witness :
  let params := guideParams flagsOn checkFails 0 [VObj 4] rejectThrows in
  let api := generateGuardedRoutes params in
  let request := requestFor "/admin-only-route" in
  (∃ s1,
     (isPathAllowed api "/admin-only-route" guideState = (Ok false, s1) ∨
      ∃ e1 s0, isPathAllowed api "/admin-only-route" guideState = (Throw e1, s0) ∧
               s1 = console_error e1 s0) ∧
     rejectThrows (getApplicationGuardedRoutes 0 [VObj 4]) (nextUrl request) s1
     = (Throw (Raised (VStr "no handler")),
        snd (guardMiddleware api request (VStr "next") guideState))) ∧
  (∀ s e s',
     guardMiddleware (generateGuardedRoutes failingGuide) request (VStr "next") s
     ≠ (Throw e, s')).
Proof.
  intros params api request. split.
  - destruct (only_rejection_failures_escape params request (VStr "next"))
      as [Hthrow _].
    apply (Hthrow guideState). by_outcome.
  - destruct (only_rejection_failures_escape failingGuide request (VStr "next"))
      as [_ Hnever].
    apply Hnever. intros s1 e s2. discriminate.
Defined.

(** A failure of the merge does escape when the rejection handler consults
    the configuration: the decision's failure is logged, and the handler's
    call runs the merge again and fails in the same way. *)
Example merge_failure_escapes_through_handler :
  let params := guideParams flagsOn checkFails 0 [VObj 1; VObj 2] rejectConsults in
  let run := guardMiddleware (generateGuardedRoutes params) (requestFor "/x")
               (VStr "next") mixedState in
  fst run = Throw (TypeError "curr[key] is not iterable") ∧
  console (snd run) = [TypeError "curr[key] is not iterable"].
Proof. vm_compute. done. Qed.

(** ** Paths named like an inherited property *)

Lemma objectPrototype_builtin (key : string) (v : val) :
  objectPrototype !! key = Some v → ∃ name, v = VBuiltin name.
Proof.
  intros Hin. apply elem_of_list_to_map_2 in Hin.
  repeat (apply elem_of_cons in Hin as [[= -> ->]|Hin]; [by eexists|]).
  by apply elem_of_nil in Hin.
Qed.

Lemma truthy_nullish (v : val) : truthy v = true → nullish v = false.
Proof. by destruct v. Qed.

(** X19: a path named like an inherited property is never allowed.  Once the
    configuration is cached with its role category a plain object, a path
    that the category has no entry for and that is the name of a property
    every object inherits (such as [constructor] or [toString]) is not
    allowed: the role check takes the inherited value for the rule of the
    path, and [isPathAllowed] rejects with the TypeError of calling
    [includes] on it, before the other two checks are entered. *)
Theorem inherited_name_is_guarded (getFlags : val → M bool)
    (callFunction : nat → M bool) (init : nat) (fragments : list val)
    (reject : M val → NextUrl → M val) (path : string) (s : State) (l : nat)
    (inherited : val) :
  let api := generateGuardedRoutes
               (guideParams getFlags callFunction init fragments reject) in
  let config := mergedApplicationGuardedRoutes s in
  truthy config = true →
  get (ownProps s config) "roleBasedRoutes" = VObj l →
  objProps s l !! path = None →
  objectPrototype !! path = Some inherited →
  isPathAllowed api path s
  = (Throw (TypeError "roles.includes is not a function"),
     record_call "checkRouteForRole" s).
Proof.
  intros api config Hcached Hcategory Hown Hproto.
  destruct (objectPrototype_builtin _ _ Hproto) as [name ->].
  cbn [api generateGuardedRoutes isPathAllowed guideParams
       isPathAllowedWithGetApplicationGuardedRoutes initValue
       applicationGuardedRoutes].
  rewrite guide_allowed_run, checkRouteForRole_run.
  rewrite (lookupThen_found _ _ _ _ _ config (record_call "checkRouteForRole" s)
             (VBuiltin name)).
  - reflexivity.
  - by apply accessor_cached_entered.
  - unfold ruleFound. rewrite !ownProps_record_call, Hcategory.
    split; [by apply truthy_nullish|]. split; [reflexivity|]. split; [|done].
    cbn [ownProps]. unfold searchMapForRoute.
    rewrite (read_inherited _ _ Hown), (get_own _ _ _ Hproto). reflexivity.
Qed.

Lemma inherited_name_is_guarded_witness :
  let api := generateGuardedRoutes
               (guideParams flagsOn checkFails 0 [] (rejectWith (VNum 404))) in
  isPathAllowed api "constructor" emptyCached
  = (Throw (TypeError "roles.includes is not a function"),
     record_call "checkRouteForRole" emptyCached).
Proof.
  apply (inherited_name_is_guarded flagsOn checkFails 0 []
           (rejectWith (VNum 404)) "constructor" emptyCached 1
           (VBuiltin "Object"));
    vm_compute; reflexivity.
Defined.

(** * Instances of the characterisations of the matcher *)

Lemma matchesWildcard_iff_witness : matchesWildcard "/a/*" "/a/b/c".
Proof.
  apply (matchesWildcard_iff "/a/*" "/a/b/c"). exists "/a".
  split; [reflexivity|]. right. exists "b/c". reflexivity.
Defined.

Lemma lookup_undefined_iff_witness : searchMapForRoute "/z" nestedTable = VUndef.
Proof.
  apply (lookup_undefined_iff "/z" nestedTable). split; [vm_compute; reflexivity|].
  intros pattern Hmatch. unfold matchesWildcard in Hmatch. vm_compute in Hmatch.
  apply elem_of_cons in Hmatch as [Hpattern|Hmatch];
    [subst pattern; vm_compute; reflexivity|].
  apply elem_of_cons in Hmatch as [Hpattern|Hmatch];
    [subst pattern; vm_compute; reflexivity|].
  apply elem_of_nil in Hmatch. destruct Hmatch.
Defined.
